(** * my2sats CLI: secret-key handling, image upload orchestration and
      post payload assembly

    A shallow embedding of [src/cli/utils.ts], [src/cli/crypto.ts],
    [src/cli/api-client.ts], [src/cli/commands/create-post.ts] and
    [src/cli/commands/update-post.ts].

    Conventions.  A JavaScript string is a [string]; every [ascii] stands
    for one UTF-16 code unit below 256.  Asynchronous calls are sequential
    in the source (every promise is awaited on the spot), so they are
    modelled as ordinary calls in an error monad that also records the
    external interactions.  Console output is not part of the model. *)

From Stdlib Require Import String Ascii List ZArith Bool Arith Lia.
Import ListNotations.

Open Scope list_scope.
Open Scope string_scope.

(* ================================================================== *)
(** ** JavaScript string primitives used by the sources *)
(* ================================================================== *)

Module JS.

Definition LF : ascii := ascii_of_nat 10.
Definition nl : string := String LF "".

Definition code (c : ascii) : nat := nat_of_ascii c.

(** White space as [String.prototype.trim] and the regular expression
    escape [\s] see it, restricted to code units below 256:
    TAB, LF, VT, FF, CR, SPACE and NO-BREAK SPACE. *)
Definition isWhiteSpace (c : ascii) : bool :=
  let n := code c in
  ((9 <=? n)%nat && (n <=? 13)%nat) || (n =? 32)%nat || (n =? 160)%nat.

Definition startsWith (s p : string) : bool := String.prefix p s.

Fixpoint rev (s : string) : string :=
  match s with
  | "" => ""
  | String c s' => rev s' ++ String c ""
  end.

Definition endsWith (s p : string) : bool := String.prefix (rev p) (rev s).

(** [s.indexOf(pat)] from the position [i] of the suffix [s]. *)
Fixpoint indexOfFrom (pat s : string) (i : nat) : option nat :=
  if String.prefix pat s then Some i
  else match s with
       | "" => None
       | String _ s' => indexOfFrom pat s' (S i)
       end.

Definition indexOf (s pat : string) : option nat := indexOfFrom pat s 0.

Definition includes (s pat : string) : bool :=
  match indexOf s pat with Some _ => true | None => false end.

(** [s.lastIndexOf(pat)]: the last position at which [pat] occurs. *)
Fixpoint lastIndexOfFrom (pat s : string) (i : nat) : option nat :=
  let here := if String.prefix pat s then Some i else None in
  match s with
  | "" => here
  | String _ s' =>
      match lastIndexOfFrom pat s' (S i) with
      | Some j => Some j
      | None => here
      end
  end.

Definition lastIndexOf (s pat : string) : option nat := lastIndexOfFrom pat s 0.

(** Relative index of [slice]: negative counts from the end, then
    clamped to the string. *)
Definition relIndex (len x : Z) : Z :=
  if (x <? 0)%Z then Z.max (len + x) 0 else Z.min x len.

Definition slice (s : string) (a b : Z) : string :=
  let len := Z.of_nat (String.length s) in
  let from := relIndex len a in
  let to := relIndex len b in
  String.substring (Z.to_nat from) (Z.to_nat (Z.max (to - from) 0)) s.

Definition sliceFrom (s : string) (a : Z) : string :=
  slice s a (Z.of_nat (String.length s)).

Fixpoint trimStart (s : string) : string :=
  match s with
  | "" => ""
  | String c s' => if isWhiteSpace c then trimStart s' else s
  end.

Fixpoint trimEnd (s : string) : string :=
  match s with
  | "" => ""
  | String c s' =>
      match trimEnd s' with
      | "" => if isWhiteSpace c then "" else String c ""
      | r => String c r
      end
  end.

Definition trim (s : string) : string := trimEnd (trimStart s).

(** [s.split(sep)] for a one-character separator, as in
    [split("\n")] and [split(",")]. *)
Fixpoint split (sep : ascii) (s : string) : list string :=
  match s with
  | "" => [""]
  | String c s' =>
      if Ascii.eqb c sep then "" :: split sep s'
      else match split sep s' with
           | [] => [String c ""]
           | x :: xs => String c x :: xs
           end
  end.

(** [GetSubstitution] for a string pattern (no captures): [$$], [$&],
    [$`] and [$'] are expanded, every other character is copied. *)
Fixpoint getSubstitution (matched before after repl : string) : string :=
  match repl with
  | String "$" (String c r as rest) =>
      if Ascii.eqb c "$" then String "$" (getSubstitution matched before after r)
      else if Ascii.eqb c "&" then matched ++ getSubstitution matched before after r
      else if Ascii.eqb c "`" then before ++ getSubstitution matched before after r
      else if Ascii.eqb c "'" then after ++ getSubstitution matched before after r
      else String "$" (getSubstitution matched before after rest)
  | String c r => String c (getSubstitution matched before after r)
  | "" => ""
  end.

(** [s.replace(pat, repl)] with a string pattern: only the first
    occurrence is replaced. *)
Definition replace (s pat repl : string) : string :=
  match indexOf s pat with
  | None => s
  | Some i =>
      let before := String.substring 0 i s in
      let after := String.substring (i + String.length pat)
                     (String.length s - (i + String.length pat)) s in
      before ++ getSubstitution pat before after repl ++ after
  end.

(** Truthiness of a string: only the empty string is falsy. *)
Definition truthy (s : string) : bool :=
  match s with "" => false | _ => true end.

End JS.

(* ================================================================== *)
(** ** Backtracking regular expressions

    The sources rely on five regular-expression literals.  They are kept
    as syntax trees and run by one backtracking matcher that follows the
    ECMAScript evaluation order: alternatives left to right, greedy
    quantifiers longest first, lazy quantifiers shortest first. *)
(* ================================================================== *)

Module Regex.

Inductive citem : Type :=
| CChar (c : ascii)            (* a single character *)
| CRange (lo hi : ascii)       (* lo-hi *)
| CSpace                       (* \s *)
| CNotSpace.                   (* \S *)

Inductive regex : Type :=
| Empty
| Char (c : ascii)
| Class (neg : bool) (items : list citem)   (* [...] and [^...] *)
| Seq (r1 r2 : regex)
| Alt (r1 r2 : regex)
| Star (greedy : bool) (r : regex)          (* r* and r*? *)
| Group (n : nat) (r : regex)               (* capturing group number n *)
| Bol                                       (* ^ without the m flag *)
| Eol.                                      (* $ without the m flag *)

(** [r+] and [r?] (no capture sits under a quantifier in the sources). *)
Definition Plus (greedy : bool) (r : regex) : regex := Seq r (Star greedy r).
Definition Opt (r : regex) : regex := Alt r Empty.

(** A run of literal characters. *)
Fixpoint Lit (s : string) : regex :=
  match s with
  | "" => Empty
  | String c s' => Seq (Char c) (Lit s')
  end.

(** [Canonicalize] of the [i] flag without the [u] flag: the upper-case
    form when it is a single code unit.  Below 256 that moves a-z and
    the accented letters 224-254 (except the division sign 247). *)
Definition canonicalize (ci : bool) (c : ascii) : ascii :=
  if ci then
    let n := JS.code c in
    if ((97 <=? n)%nat && (n <=? 122)%nat)
       || ((224 <=? n)%nat && (n <=? 254)%nat && negb (n =? 247)%nat)
    then ascii_of_nat (n - 32)
    else c
  else c.

Definition same (ci : bool) (a b : ascii) : bool :=
  Ascii.eqb (canonicalize ci a) (canonicalize ci b).

(** Does some member of the range [lo .. lo + n] compare equal to [c]? *)
Fixpoint rangeHas (ci : bool) (lo n : nat) (c : ascii) : bool :=
  same ci (ascii_of_nat lo) c
  || match n with
     | O => false
     | S n' => rangeHas ci (S lo) n' c
     end.

Definition itemHas (ci : bool) (c : ascii) (it : citem) : bool :=
  match it with
  | CChar d => same ci d c
  | CRange lo hi =>
      (JS.code lo <=? JS.code hi)%nat
      && rangeHas ci (JS.code lo) (JS.code hi - JS.code lo) c
  | CSpace => JS.isWhiteSpace c
  | CNotSpace => negb (JS.isWhiteSpace c)
  end.

Definition classHas (ci neg : bool) (items : list citem) (c : ascii) : bool :=
  xorb neg (existsb (itemHas ci c) items).

(** Captures: group number and captured text. *)
Definition caps : Type := list (nat * string).

Fixpoint capture (n : nat) (cs : caps) : option string :=
  match cs with
  | [] => None
  | (k, v) :: cs' => if (k =? n)%nat then Some v else capture n cs'
  end.

(** A continuation receives the position reached, the rest of the input
    and the captures so far. *)
Definition cont : Type := nat -> string -> caps -> option (nat * caps).

(** The iterations of a star whose body is matched by [body]: greedy
    tries one more iteration first, lazy tries the continuation first.
    An iteration that consumes nothing is rejected, as in the standard;
    every iteration therefore consumes a character and [fuel], the
    length of the input left, is never exhausted early
    ([starLoop_fuel]). *)
Fixpoint starLoop (body : nat -> string -> caps -> cont -> option (nat * caps))
         (greedy : bool) (k : cont) (fuel : nat) (pos : nat) (s : string)
         (cs : caps) {struct fuel} : option (nat * caps) :=
  let again :=
    match fuel with
    | O => None
    | S fuel' =>
        body pos s cs
          (fun pos1 s1 cs1 =>
             if (pos1 =? pos)%nat then None
             else starLoop body greedy k fuel' pos1 s1 cs1)
    end in
  if greedy then
    match again with
    | Some res => Some res
    | None => k pos s cs
    end
  else
    match k pos s cs with
    | Some res => Some res
    | None => again
    end.

(** [run ci r pos s cs k]: match [r] at position [pos], where [s] is the
    input from [pos] on, then continue with [k]. *)
Fixpoint run (ci : bool) (r : regex) (pos : nat) (s : string) (cs : caps)
         (k : cont) {struct r} : option (nat * caps) :=
  match r with
  | Empty => k pos s cs
  | Char c =>
      match s with
      | String d s' => if same ci c d then k (S pos) s' cs else None
      | "" => None
      end
  | Class neg items =>
      match s with
      | String d s' => if classHas ci neg items d then k (S pos) s' cs else None
      | "" => None
      end
  | Seq r1 r2 =>
      run ci r1 pos s cs (fun pos1 s1 cs1 => run ci r2 pos1 s1 cs1 k)
  | Alt r1 r2 =>
      match run ci r1 pos s cs k with
      | Some res => Some res
      | None => run ci r2 pos s cs k
      end
  | Star greedy r1 =>
      starLoop (run ci r1) greedy k (String.length s) pos s cs
  | Group n r1 =>
      run ci r1 pos s cs
        (fun pos1 s1 cs1 => k pos1 s1 ((n, String.substring 0 (pos1 - pos) s) :: cs1))
  | Bol => if (pos =? 0)%nat then k pos s cs else None
  | Eol => match s with "" => k pos s cs | _ => None end
  end.

(** The continuation of a whole pattern: the match ends here. *)
Definition final : cont := fun e _ cs => Some (e, cs).

(** The result of [exec]: [m_text] is [match[0]], [m_caps] the groups. *)
Record MatchResult : Type := mkMatch
  { m_index : nat; m_end : nat; m_text : string; m_caps : caps }.

Definition matchAt (ci : bool) (r : regex) (pos : nat) (s : string)
  : option MatchResult :=
  match run ci r pos s [] final with
  | Some (e, cs) => Some (mkMatch pos e (String.substring 0 (e - pos) s) cs)
  | None => None
  end.

(** First match at or after [pos]; [s] is the input from [pos] on. *)
Fixpoint search (ci : bool) (r : regex) (pos : nat) (s : string)
  : option MatchResult :=
  match matchAt ci r pos s with
  | Some m => Some m
  | None =>
      match s with
      | "" => None
      | String _ s' => search ci r (S pos) s'
      end
  end.

Fixpoint drop (n : nat) (s : string) : string :=
  match n, s with
  | O, _ => s
  | S n', String _ s' => drop n' s'
  | S _, "" => ""
  end.

(** [while ((match = re.exec(content)) !== null)] for a regular
    expression with the [g] flag: every call resumes at [lastIndex], the
    end of the previous match.  After an empty match the source would
    call [exec] at the same place for ever; the model stops there, and
    the two patterns run this way cannot match the empty string
    ([markdown_match_nonempty], [html_match_nonempty]). *)
Fixpoint execLoop (fuel : nat) (ci : bool) (r : regex) (pos : nat) (s : string)
  : list MatchResult :=
  match fuel with
  | O => []
  | S fuel' =>
      match search ci r pos s with
      | None => []
      | Some m =>
          if (m_end m <=? m_index m)%nat then [m]
          else m :: execLoop fuel' ci r (m_end m) (drop (m_end m - pos) s)
      end
  end.

Definition execAll (ci : bool) (r : regex) (s : string) : list MatchResult :=
  execLoop (S (String.length s)) ci r 0 s.

(** [s.match(re)] without the [g] flag. *)
Definition matchFirst (ci : bool) (r : regex) (s : string) : option MatchResult :=
  search ci r 0 s.

(** [s.replace(re, empty string)] with the [g] flag: every match is
    deleted; after an empty match the scan moves on by one character.
    The fuel is never exhausted ([deleteLoop_fuel]). *)
Fixpoint deleteLoop (fuel : nat) (ci : bool) (r : regex) (pos : nat) (s : string)
  : string :=
  match fuel with
  | O => s
  | S fuel' =>
      match search ci r pos s with
      | None => s
      | Some m =>
          let before := String.substring 0 (m_index m - pos) s in
          let rest := drop (m_end m - pos) s in
          if (m_end m =? m_index m)%nat then
            match rest with
            | "" => before
            | String c rest' =>
                before ++ String c (deleteLoop fuel' ci r (S (m_end m)) rest')
            end
          else before ++ deleteLoop fuel' ci r (m_end m) rest
      end
  end.

Definition deleteAll (ci : bool) (r : regex) (s : string) : string :=
  deleteLoop (S (String.length s)) ci r 0 s.

(** *** Properties of matchers, used to reason about [run] *)

(** A matcher that only looks at what its continuation returns on the
    suffixes of the input. *)
Definition Extensional
           (body : nat -> string -> caps -> cont -> option (nat * caps)) : Prop :=
  forall pos s cs (k1 k2 : cont),
    (forall u s' cs', s = (u ++ s')%string ->
                      k1 (pos + String.length u) s' cs' = k2 (pos + String.length u) s' cs') ->
    body pos s cs k1 = body pos s cs k2.

(** A matcher that succeeds only through its continuation, called on
    a suffix of the input. *)
Definition Sound
           (body : nat -> string -> caps -> cont -> option (nat * caps)) : Prop :=
  forall pos s cs (k : cont) res,
    body pos s cs k = Some res ->
    exists u s' cs', s = (u ++ s')%string /\ k (pos + String.length u) s' cs' = Some res.

(** A matcher that, in addition, leaves the captures as they are. *)
Definition Transparent
           (body : nat -> string -> caps -> cont -> option (nat * caps)) : Prop :=
  forall pos s cs (k : cont) res,
    body pos s cs k = Some res ->
    exists u s', s = (u ++ s')%string /\ k (pos + String.length u) s' cs = Some res.

Fixpoint groupFree (r : regex) : bool :=
  match r with
  | Empty | Char _ | Class _ _ | Bol | Eol => true
  | Seq r1 r2 | Alt r1 r2 => groupFree r1 && groupFree r2
  | Star _ r1 => groupFree r1
  | Group _ _ => false
  end.

End Regex.

(* ================================================================== *)
(** ** The regular-expression literals of the sources *)
(* ================================================================== *)

Module Patterns.
Import Regex.

Definition DQ : ascii := ascii_of_nat 34.   (* the double quote *)
Definition SQ : ascii := "'"%char.

Definition seqs (rs : list regex) : regex := fold_right Seq Empty rs.

Fixpoint Repeat (n : nat) (r : regex) : regex :=
  match n with
  | O => Empty
  | S n' => Seq r (Repeat n' r)
  end.

(** [[\s\S]]: any character. *)
Definition anyChar : regex := Class false [CSpace; CNotSpace].

(** The delimiter lines of a front-matter block. *)
Definition opening : string := "---" ++ JS.nl.
Definition closing : string := JS.nl ++ "---" ++ JS.nl.

(** The pattern of [parseFrontmatter], piece by piece:
    [^] [---\n] [([\s\S]*?)] [\n---\n] [([\s\S]* )] [$]. *)
Definition frontmatterRegex : regex :=
  seqs [ Bol; Lit opening;
         Group 1 (Star false anyChar);
         Lit closing;
         Group 2 (Star true anyChar);
         Eol ].

(** The quote-stripping pattern of [parseFrontmatter], with the [g]
    flag: [^[DQ']] or [[DQ']$], where DQ is the double quote. *)
Definition quoteRegex : regex :=
  Alt (Seq Bol (Class false [CChar DQ; CChar SQ]))
      (Seq (Class false [CChar DQ; CChar SQ]) Eol).

(** The markdown pattern of [parseImageReferences], with the [g] flag:
    [!] [\[] [[^\]]* ] [\]] [\(] [([^)\s]+)] [(?:\s+ DQ [^DQ]* DQ)?] [\)]. *)
Definition markdownImageRegex : regex :=
  seqs [ Char "!"%char; Char "["%char;
         Star true (Class true [CChar "]"]);
         Char "]"; Char "(";
         Group 1 (Plus true (Class true [CChar ")"; CSpace]));
         Opt (seqs [ Plus true (Class false [CSpace]);
                     Char DQ; Star true (Class true [CChar DQ]); Char DQ ]);
         Char ")" ].

(** The HTML pattern of [parseImageReferences], with the [g] and [i]
    flags: [<img] [[^>]+] [src=] [[DQ']] [([^DQ']+)] [[DQ']] [[^>]* ]
    [\/?] [>]. *)
Definition htmlImageRegex : regex :=
  seqs [ Lit "<img";
         Plus true (Class true [CChar ">"]);
         Lit "src=";
         Class false [CChar DQ; CChar SQ];
         Group 1 (Plus true (Class true [CChar DQ; CChar SQ]));
         Class false [CChar DQ; CChar SQ];
         Star true (Class true [CChar ">"]);
         Opt (Char "/");
         Char ">" ].

(** [[0-9a-fA-F]]. *)
Definition hexClass : list citem :=
  [CRange "0" "9"; CRange "a" "f"; CRange "A" "F"].

(** [/^[0-9a-fA-F]{64}$/] of [parseSecretKey]. *)
Definition hexKeyRegex : regex :=
  seqs [ Bol; Repeat 64 (Class false hexClass); Eol ].

End Patterns.

(* ================================================================== *)
(** ** Types ([types.ts]) and errors ([errors.ts]) *)
(* ================================================================== *)

(** A front-matter value is what [setFrontmatterField] stores:
    [string | string[]], whatever the key. *)
Inductive FmValue : Type :=
| VStr (s : string)
| VArr (items : list string).

(** JavaScript truthiness of an optional field: [undefined] and the empty
    string are falsy, every array is truthy. *)
Definition truthyField (v : option FmValue) : bool :=
  match v with
  | None => false
  | Some (VStr s) => JS.truthy s
  | Some (VArr _) => true
  end.

Record PostFrontmatter : Type := mkFrontmatter
  { fm_slug : option FmValue;
    fm_title : option FmValue;
    fm_author : option FmValue;
    fm_excerpt : option FmValue;
    fm_featured_image : option FmValue;
    fm_tags : option FmValue }.

Definition emptyFrontmatter : PostFrontmatter :=
  mkFrontmatter None None None None None None.

Record ImageReference : Type := mkRef
  { original : string;    (* the full match *)
    path : string }.      (* just the path *)

Record UploadResponse : Type := mkUpload
  { url : string; filename : string; size : Z; type : string }.

Inductive ImageProblem : Type :=
| ImageNotFound (fullPath : string)
| ImageTooLarge (fullPath : string) (bytes : Z)
| ImageBadType (fullPath : string) (mime : string).

Inductive Error : Type :=
| KeyfileNotFoundError (keyfilePath : string)
| InvalidKeyfileError
| DecryptionError
| InvalidSecretKeyError (message : string)
| ApiError (status : Z) (message : string)
| ValidationError (fields : list string)
| FileNotFoundError (filePath : string)
| ImageValidationError (problem : ImageProblem)
| AbortedError
| PlainError (message : string)        (* [new Error(message)] *)
| TypeError (message : string)         (* raised by the runtime *)
| LibraryError (origin : string).      (* thrown inside a dependency *)

Definition defaultInvalidSecretKey : string :=
  "Invalid secret key format. Expected nsec or 64-character hex string".

(* ================================================================== *)
(** ** [utils.ts]: front matter and image references *)
(* ================================================================== *)

Definition validKeys : list string :=
  ["slug"; "title"; "author"; "excerpt"; "featured_image"; "tags"].

Definition setFrontmatterField (frontmatter : PostFrontmatter) (key : string)
           (value : FmValue) : PostFrontmatter :=
  if existsb (String.eqb key) validKeys then
    let 'mkFrontmatter sl ti au ex fi ta := frontmatter in
    if String.eqb key "slug" then mkFrontmatter (Some value) ti au ex fi ta
    else if String.eqb key "title" then mkFrontmatter sl (Some value) au ex fi ta
    else if String.eqb key "author" then mkFrontmatter sl ti (Some value) ex fi ta
    else if String.eqb key "excerpt" then mkFrontmatter sl ti au (Some value) fi ta
    else if String.eqb key "featured_image" then mkFrontmatter sl ti au ex (Some value) ta
    else mkFrontmatter sl ti au ex fi (Some value)
  else frontmatter.

(** [s.replace(quoteRegex, empty string)]. *)
Definition stripQuotes (s : string) : string :=
  Regex.deleteAll false Patterns.quoteRegex s.

(** The body of the [for (const line of ...)] loop of [parseFrontmatter]. *)
Definition parseLine (frontmatter : PostFrontmatter) (line : string)
  : PostFrontmatter :=
  match JS.indexOf line ":" with
  | None => frontmatter
  | Some colonIndex =>
      let key := JS.trim (JS.slice line 0 (Z.of_nat colonIndex)) in
      let value := JS.trim (JS.sliceFrom line (Z.of_nat colonIndex + 1)) in
      if JS.startsWith value "[" && JS.endsWith value "]" then
        let arrayContent := JS.slice value 1 (-1) in
        let items :=
          filter JS.truthy
            (map (fun item => stripQuotes (JS.trim item))
                 (JS.split "," arrayContent)) in
        setFrontmatterField frontmatter key (VArr items)
      else
        setFrontmatterField frontmatter key (VStr (stripQuotes value))
  end.

Definition parseFrontmatter (markdown : string) : PostFrontmatter * string :=
  match Regex.matchFirst false Patterns.frontmatterRegex markdown with
  | None => (emptyFrontmatter, markdown)
  | Some m =>
      match Regex.capture 1 (Regex.m_caps m), Regex.capture 2 (Regex.m_caps m) with
      | Some frontmatterStr, Some content =>
          if negb (JS.truthy frontmatterStr) then (emptyFrontmatter, markdown)
          else (fold_left parseLine (JS.split JS.LF frontmatterStr) emptyFrontmatter,
                JS.trim content)
      | _, _ => (emptyFrontmatter, markdown)
      end
  end.

(** An input whose front-matter block is present and empty: the opening
    delimiter line is followed at once by the closing delimiter line, or
    by one empty line and then the closing delimiter line. *)
Definition emptyDelimiterBlock (markdown : string) : Prop :=
  exists rest,
    markdown = "---" ++ JS.nl ++ "---" ++ JS.nl ++ rest
    \/ markdown = "---" ++ JS.nl ++ JS.nl ++ "---" ++ JS.nl ++ rest.

Definition isLocalPath (value : string) : bool :=
  negb (JS.startsWith value "http://") && negb (JS.startsWith value "https://").

(** One [while ((match = re.exec(content)) !== null)] loop: a reference
    is pushed for every match whose first group is non-empty and local. *)
Fixpoint pushLocal (images : list ImageReference) (ms : list Regex.MatchResult)
  : list ImageReference :=
  match ms with
  | [] => images
  | m :: ms' =>
      match Regex.capture 1 (Regex.m_caps m) with
      | Some p =>
          if JS.truthy p && isLocalPath p
          then pushLocal (images ++ [mkRef (Regex.m_text m) p])%list ms'
          else pushLocal images ms'
      | None => pushLocal images ms'
      end
  end.

Definition parseImageReferences (content : string) : list ImageReference :=
  let images := [] in
  let images := pushLocal images (Regex.execAll false Patterns.markdownImageRegex content) in
  let images := pushLocal images (Regex.execAll true Patterns.htmlImageRegex content) in
  images.

Definition getBasePath (filePath : string) : string :=
  if JS.includes filePath "/" then
    match JS.lastIndexOf filePath "/" with
    | Some i => JS.slice filePath 0 (Z.of_nat i)
    | None => "."
    end
  else ".".



(* ================================================================== *)
(** ** The environment of a command and the monad of its effects *)
(* ================================================================== *)

(** What [Bun.file(path)] gives for a file that exists. *)
Record File : Type := mkFile
  { f_text : string; f_size : Z; f_type : string }.

(** [ResolvedConfig] of [config.ts]. *)
Record Config : Type := mkConfig
  { apiUrl : string;
    keyfilePath : string;
    maxImageSize : Z;
    allowedImageTypes : list string }.

(** [DEFAULTS] of [config.ts]; the default keyfile path depends on the
    home directory and is a parameter. *)
Definition DEFAULTS (defaultKeyfilePath : string) : Config :=
  mkConfig "http://localhost:3000" defaultKeyfilePath (5 * 1024 * 1024)
    ["image/jpeg"; "image/png"; "image/webp"; "image/gif"].

(** How one upload request ends: a 2xx answer with its JSON body, another
    status with its text, or an exception inside [getToken] or [fetch]. *)
Inductive UploadOutcome : Type :=
| Uploaded (response : UploadResponse)
| Rejected (status : Z) (errorText : string)
| Failed (origin : string).

(** The interactions of a command with its collaborators, in the order
    in which they happen. *)
Inductive Event : Type :=
| EvPrompt (message : string)
| EvDecrypt (ncryptsec password : string)
| EvUpload (fullPath : string) (outcome : UploadOutcome).

(** The collaborators.  [promptPassword] is [response.password] of the
    password prompt ([None] when the user cancelled); [nip49_decrypt] and
    [getPublicKey] are the nostr-tools functions ([None] when they
    throw); [transport] is the outcome of the upload request for a file
    to a URL, which may depend on everything that happened before. *)
Record World : Type := mkWorld
  { config : Config;
    file : string -> option File;
    promptPassword : option string;
    nip49_decrypt : string -> string -> option (list Byte.byte);
    getPublicKey : list Byte.byte -> option string;
    transport : list Event -> string -> string -> UploadOutcome }.

(** A computation reads the interactions so far and returns them
    extended, with a thrown error or a result. *)
Definition M (A : Type) : Type := list Event -> list Event * (Error + A).

Definition ret {A : Type} (a : A) : M A := fun t => (t, inr a).

Definition throw {A : Type} (e : Error) : M A := fun t => (t, inl e).

Definition bind {A B : Type} (c : M A) (k : A -> M B) : M B :=
  fun t =>
    match c t with
    | (t1, inl e) => (t1, inl e)
    | (t1, inr a) => k a t1
    end.

Notation "x <- c ;; k" := (bind c (fun x => k))
  (at level 61, c at next level, right associativity).
Notation "' p <- c ;; k" := (bind c (fun x => let 'p := x in k))
  (at level 61, p pattern, c at next level, right associativity).

(* ================================================================== *)
(** ** [api-client.ts]: image validation and upload *)
(* ================================================================== *)

(** The path of an image, relative to the directory of the markdown file
    unless it is absolute. *)
Definition resolvePath (filePath basePath : string) : string :=
  if JS.startsWith filePath "/" then filePath
  else basePath ++ "/" ++ filePath.

Definition validateImageFile (w : World) (filePath basePath : string)
  : Error + (File * string) :=
  let fullPath := resolvePath filePath basePath in
  match file w fullPath with
  | None => inl (ImageValidationError (ImageNotFound fullPath))
  | Some f =>
      if (f_size f >? maxImageSize (config w))%Z then
        inl (ImageValidationError (ImageTooLarge fullPath (f_size f)))
      else if negb (existsb (String.eqb (f_type f)) (allowedImageTypes (config w))) then
        inl (ImageValidationError (ImageBadType fullPath (f_type f)))
      else inr (f, fullPath)
  end.


(** The error thrown for an upload that did not succeed. *)
Definition uploadError (outcome : UploadOutcome) : option Error :=
  match outcome with
  | Uploaded _ => None
  | Rejected status errorText =>
      Some (ApiError status ("Image upload failed: " ++ errorText))
  | Failed origin => Some (LibraryError origin)
  end.


(** The successful uploads of the files at [paths], answered by
    [responses]. *)
Definition uploadsOf (basePath : string) (paths : list string)
           (responses : list UploadResponse) : list Event :=
  map (fun pr => EvUpload (resolvePath (fst pr) basePath) (Uploaded (snd pr)))
      (combine paths responses).

(** [uploadImage]: one request to [apiUrl/api/uploads]; the outcome is
    recorded, and thrown unless it is a 2xx answer. *)
Definition uploadImage (w : World) (fullPath apiUrl : string) : M UploadResponse :=
  fun t =>
    let outcome := transport w t fullPath (apiUrl ++ "/api/uploads") in
    let t' := (t ++ [EvUpload fullPath outcome])%list in
    match outcome with
    | Uploaded response => (t', inr response)
    | Rejected status errorText =>
        (t', inl (ApiError status ("Image upload failed: " ++ errorText)))
    | Failed origin => (t', inl (LibraryError origin))
    end.

(* ================================================================== *)
(** ** [utils.ts]: [processImages] *)
(* ================================================================== *)

(** [Map<string, string>]: an association list in insertion order. *)
Definition PathMap : Type := list (string * string).

Fixpoint mapHas (m : PathMap) (k : string) : bool :=
  match m with
  | [] => false
  | (k', _) :: m' => String.eqb k' k || mapHas m' k
  end.

Fixpoint mapGet (m : PathMap) (k : string) : option string :=
  match m with
  | [] => None
  | (k', v) :: m' => if String.eqb k' k then Some v else mapGet m' k
  end.

(** [set] overwrites the value of a key that is present, in place, and
    appends a new key at the end. *)
Fixpoint mapSet (m : PathMap) (k v : string) : PathMap :=
  match m with
  | [] => [(k, v)]
  | (k', v') :: m' =>
      if String.eqb k' k then (k', v) :: m' else (k', v') :: mapSet m' k v
  end.

Definition mapKeys (m : PathMap) : list string := map fst m.

Definition addPath (m : PathMap) (p : string) : PathMap :=
  if negb (mapHas m p) then mapSet m p "" else m.

(** The featured image is a candidate for upload when it is a non-empty
    local path. *)
Definition featuredIsLocal (featuredImage : option string) : bool :=
  match featuredImage with
  | Some f => JS.truthy f && isLocalPath f
  | None => false
  end.

(** The unique local paths, content images first, then the featured
    image. *)
Definition collectPaths (imageRefs : list ImageReference)
           (featuredImage : option string) : PathMap :=
  let pathsToUpload := fold_left (fun m ref => addPath m (path ref)) imageRefs [] in
  match featuredImage with
  | Some f => if featuredIsLocal featuredImage then addPath pathsToUpload f
              else pathsToUpload
  | None => pathsToUpload
  end.

(** [for (const [localPath] of pathsToUpload)]: validate, upload, record
    the URL.  The first failure leaves the loop and the function.  The
    loop only overwrites the values of keys that are present, which
    leaves the iteration order of the map as it is, so the keys are taken
    once, before the loop. *)
Fixpoint uploadLoop (w : World) (basePath api : string) (localPaths : list string)
         (pathsToUpload : PathMap) : M PathMap :=
  match localPaths with
  | [] => ret pathsToUpload
  | localPath :: rest =>
      match validateImageFile w localPath basePath with
      | inl e => throw e
      | inr (_, fullPath) =>
          result <- uploadImage w fullPath api ;;
          uploadLoop w basePath api rest (mapSet pathsToUpload localPath (url result))
      end
  end.

(** The replacement loop: one [replace] per reference, each rewriting
    the first occurrence only. *)
Definition replaceRef (pathsToUpload : PathMap) (processedContent : string)
           (ref : ImageReference) : string :=
  match mapGet pathsToUpload (path ref) with
  | Some uploadedUrl =>
      if JS.truthy uploadedUrl then
        let newRef := JS.replace (original ref) (path ref) uploadedUrl in
        JS.replace processedContent (original ref) newRef
      else processedContent
  | None => processedContent
  end.

Definition processImages (w : World) (content : string)
           (featuredImage : option string) (basePath api : string)
  : M (string * option string) :=
  let imageRefs := parseImageReferences content in
  let pathsToUpload := collectPaths imageRefs featuredImage in
  if (List.length pathsToUpload =? 0)%nat then ret (content, featuredImage)
  else
    uploaded <- uploadLoop w basePath api (mapKeys pathsToUpload) pathsToUpload ;;
    let processedContent := fold_left (replaceRef uploaded) imageRefs content in
    let featuredImageUrl :=
      match featuredImage with
      | Some f => if featuredIsLocal featuredImage then mapGet uploaded f
                  else featuredImage
      | None => featuredImage
      end in
    ret (processedContent, featuredImageUrl).

(* ================================================================== *)
(** ** The bech32 codec behind [decode] of nostr-tools/nip19

    [decode] is a dependency of [parseSecretKey], not code of this
    program.  [parseSecretKey] is defined over an arbitrary codec; the
    module below is the codec of the bech32 standard (character set,
    checksum, regrouping of 5-bit words into bytes), used to evaluate
    [parseSecretKey] on concrete keys. *)
(* ================================================================== *)

(** What [decode] returns, as far as [parseSecretKey] looks at it: the
    [type] tag, and the bytes when the tag is [nsec]. *)
Inductive DecodedResult : Type :=
| DNsec (data : list Byte.byte)
| DOther (type : string).

Module Nip19.

Definition charset : string := "qpzry9x8gf2tvdw0s3jn54khce6mua7l".

Fixpoint wordOfFrom (alphabet : string) (c : ascii) (i : Z) : option Z :=
  match alphabet with
  | "" => None
  | String d rest => if Ascii.eqb c d then Some i else wordOfFrom rest c (i + 1)
  end.

Definition wordOf (c : ascii) : option Z := wordOfFrom charset c 0.

Fixpoint wordsOf (s : string) : option (list Z) :=
  match s with
  | "" => Some []
  | String c s' =>
      match wordOf c, wordsOf s' with
      | Some v, Some vs => Some (v :: vs)
      | _, _ => None
      end
  end.

Definition generators : list Z :=
  [0x3b6a57b2; 0x26508e6d; 0x1ea119fa; 0x3d4233dd; 0x2a1462b3]%Z.

Fixpoint mix (b : Z) (i : Z) (gens : list Z) (chk : Z) : Z :=
  match gens with
  | [] => chk
  | g :: gens' =>
      mix b (i + 1) gens' (if Z.testbit b i then Z.lxor chk g else chk)
  end.

Definition polymodStep (chk v : Z) : Z :=
  let b := Z.shiftr chk 25 in
  mix b 0 generators (Z.lxor (Z.shiftl (Z.land chk 0x1ffffff) 5) v).

Definition polymod (values : list Z) : Z := fold_left polymodStep values 1%Z.

Fixpoint codes (s : string) : list Z :=
  match s with
  | "" => []
  | String c s' => Z.of_nat (JS.code c) :: codes s'
  end.

Definition hrpExpand (hrp : string) : list Z :=
  (map (fun x => Z.shiftr x 5) (codes hrp) ++ [0%Z]
     ++ map (fun x => Z.land x 31) (codes hrp))%list.

Definition isUpper (c : ascii) : bool :=
  (65 <=? JS.code c)%nat && (JS.code c <=? 90)%nat.

Fixpoint hasUpper (s : string) : bool :=
  match s with
  | "" => false
  | String c s' => isUpper c || hasUpper s'
  end.

Definition isLower (c : ascii) : bool :=
  (97 <=? JS.code c)%nat && (JS.code c <=? 122)%nat.

Fixpoint hasLower (s : string) : bool :=
  match s with
  | "" => false
  | String c s' => isLower c || hasLower s'
  end.

Fixpoint toLower (s : string) : string :=
  match s with
  | "" => ""
  | String c s' =>
      String (if isUpper c then ascii_of_nat (JS.code c + 32) else c) (toLower s')
  end.

Definition maxSize : nat := 5000.

(** The human-readable prefix and the data words of a bech32 string,
    the six checksum words removed; [None] where the codec throws. *)
Definition bech32Decode (str : string) : option (string * list Z) :=
  if (String.length str <? 8)%nat || (maxSize <? String.length str)%nat then None
  else if hasUpper str && hasLower str then None
  else
    let str := toLower str in
    match JS.lastIndexOf str "1" with
    | None => None
    | Some O => None
    | Some sepIndex =>
        let prefix := String.substring 0 sepIndex str in
        let data := Regex.drop (S sepIndex) str in
        if (String.length data <? 6)%nat then None
        else
          match wordsOf data with
          | None => None
          | Some words =>
              if (polymod (hrpExpand prefix ++ words) =? 1)%Z
              then Some (prefix, firstn (List.length words - 6) words)
              else None
          end
    end.

(** Regrouping of 5-bit words into bytes, without padding.  Fewer than
    8 bits are pending between two words, so a word completes at most one
    byte; [emit] is given two rounds. *)
Fixpoint emit (fuel : nat) (carry pos : Z) (res : list Z) : Z * list Z :=
  match fuel with
  | O => (pos, res)
  | S fuel' =>
      if (8 <=? pos)%Z
      then emit fuel' carry (pos - 8)
             (res ++ [Z.land (Z.shiftr carry (pos - 8)) 255])%list
      else (pos, res)
  end.

Fixpoint regroup (words : list Z) (carry pos : Z) (res : list Z)
  : Z * Z * list Z :=
  match words with
  | [] => (carry, pos, res)
  | n :: words' =>
      let carry := Z.lor (Z.shiftl carry 5) n in
      let pos := (pos + 5)%Z in
      let '(pos, res) := emit 2 carry pos res in
      regroup words' (Z.land carry (2 ^ pos - 1)) pos res
  end.

Definition byteOfZ (z : Z) : Byte.byte :=
  byte_of_ascii (ascii_of_nat (Z.to_nat z)).

Definition fromWords (words : list Z) : option (list Byte.byte) :=
  let '(carry, pos, res) := regroup words 0%Z 0%Z [] in
  let carry := Z.land (Z.shiftl carry (8 - pos)) 255 in
  if (5 <=? pos)%Z then None
  else if negb (carry =? 0)%Z then None
  else Some (map byteOfZ res).

Definition knownPrefixes : list string :=
  ["nprofile"; "nevent"; "naddr"; "npub"; "note"].

Definition decode (code : string) : option DecodedResult :=
  match bech32Decode code with
  | None => None
  | Some (prefix, words) =>
      match fromWords words with
      | None => None
      | Some data =>
          if String.eqb prefix "nsec" then Some (DNsec data)
          else if existsb (String.eqb prefix) knownPrefixes
               then Some (DOther prefix)
               else None
      end
  end.

End Nip19.

(* ================================================================== *)
(** ** [crypto.ts] *)
(* ================================================================== *)

Definition hexDigit (c : ascii) : option nat :=
  let n := JS.code c in
  if (48 <=? n)%nat && (n <=? 57)%nat then Some (n - 48)
  else if (97 <=? n)%nat && (n <=? 102)%nat then Some (n - 87)
  else if (65 <=? n)%nat && (n <=? 70)%nat then Some (n - 55)
  else None.

Definition isHexDigit (c : ascii) : bool :=
  match hexDigit c with Some _ => true | None => false end.

Fixpoint allChars (P : ascii -> bool) (s : string) : bool :=
  match s with
  | "" => true
  | String c s' => P c && allChars P s'
  end.

(** [hexToBytes] of @noble/hashes: two hexadecimal digits per byte;
    [None] where it throws. *)
Fixpoint hexToBytes (hex : string) : option (list Byte.byte) :=
  match hex with
  | "" => Some []
  | String hi (String lo rest) =>
      match hexDigit hi, hexDigit lo, hexToBytes rest with
      | Some h, Some l, Some bytes =>
          Some (byte_of_ascii (ascii_of_nat (16 * h + l)) :: bytes)
      | _, _, _ => None
      end
  | String _ "" => None
  end.

(** [re.test(s)]. *)
Definition test (ci : bool) (r : Regex.regex) (s : string) : bool :=
  match Regex.matchFirst ci r s with Some _ => true | None => false end.

Section SecretKey.

(** [decode] of nostr-tools/nip19; [None] when it throws. *)
Variable decode : string -> option DecodedResult.

Definition parseSecretKey (input : string) : Error + list Byte.byte :=
  let trimmed := JS.trim input in
  if JS.startsWith trimmed "nsec1" then
    match decode trimmed with
    | None => inl (LibraryError "nip19.decode")
    | Some (DOther _) => inl (InvalidSecretKeyError "Invalid nsec format")
    | Some (DNsec data) => inr data
    end
  else if negb (test false Patterns.hexKeyRegex trimmed) then
    inl (InvalidSecretKeyError defaultInvalidSecretKey)
  else
    match hexToBytes trimmed with
    | Some bytes => inr bytes
    | None => inl (LibraryError "hexToBytes")
    end.

End SecretKey.

Definition passwordPrompt : string := "Enter password to decrypt key:".

Definition prompt (w : World) (message : string) : M (option string) :=
  fun t => ((t ++ [EvPrompt message])%list, inr (promptPassword w)).

Definition decrypt (w : World) (ncryptsec password : string)
  : M (option (list Byte.byte)) :=
  fun t => ((t ++ [EvDecrypt ncryptsec password])%list,
            inr (nip49_decrypt w ncryptsec password)).

Definition getSecretKey (w : World) (keyfilePath : string) : M (list Byte.byte) :=
  match file w keyfilePath with
  | None => throw (KeyfileNotFoundError keyfilePath)
  | Some keyfile =>
      let ncryptsec := f_text keyfile in
      if negb (JS.startsWith ncryptsec "ncryptsec1") then throw InvalidKeyfileError
      else
        response <- prompt w passwordPrompt ;;
        match response with
        | Some password =>
            if negb (JS.truthy password) then throw AbortedError
            else
              (* try { return decrypt(...) } catch { throw new DecryptionError() } *)
              decrypted <- decrypt w (JS.trim ncryptsec) password ;;
              match decrypted with
              | Some key => ret key
              | None => throw DecryptionError
              end
        | None => throw AbortedError
        end
  end.



(* ================================================================== *)
(** ** The commands: [create-post.ts] and [update-post.ts] *)
(* ================================================================== *)

Record PostPayload : Type := mkPost
  { p_slug : option FmValue;
    p_title : option FmValue;
    p_content : string;
    p_author : option FmValue;
    p_excerpt : option FmValue;
    p_featured_image : option FmValue;
    p_tags : option FmValue }.

Record UpdatePayload : Type := mkUpdate
  { u_slug : option FmValue;
    u_title : option FmValue;
    u_content : option string;
    u_excerpt : option FmValue;
    u_featured_image : option string;
    u_author : option FmValue;
    u_tags : option FmValue }.

Record CommonOptions : Type := mkCommon
  { keyfile : string; api : string }.

Record UpdatePostOptions : Type := mkUpdateOptions
  { o_common : CommonOptions;
    o_file : option string;
    o_title : option string;
    o_content : option string;
    o_excerpt : option string;
    o_featuredImage : option string;
    o_author : option string;
    o_tags : option string;
    o_newSlug : option string }.

Definition VStrOpt (o : option string) : option FmValue :=
  match o with Some s => Some (VStr s) | None => None end.

(** Truthiness of an optional string ([if (options.title)]). *)
Definition given (o : option string) : bool :=
  match o with Some s => JS.truthy s | None => false end.

(** [processImages] as the commands call it.  A front-matter value can be
    an array; [isLocalPath] then fails on [startsWith], after the scan of
    the content and before any upload. *)
Definition callProcessImages (w : World) (content : string)
           (featuredImage : option FmValue) (basePath api : string)
  : M (string * option string) :=
  match featuredImage with
  | Some (VArr _) => throw (TypeError "value.startsWith is not a function")
  | Some (VStr f) => processImages w content (Some f) basePath api
  | None => processImages w content None basePath api
  end.

(** [getSecretKey], then [getPublicKey], which throws on a key that is
    not a valid scalar. *)
Definition loadKey (w : World) (keyfilePath : string) : M (list Byte.byte) :=
  secretKey <- getSecretKey w keyfilePath ;;
  match getPublicKey w secretKey with
  | Some _ => ret secretKey
  | None => throw (LibraryError "getPublicKey")
  end.

(** The required fields that are missing (lines 24-27 of
    [create-post.ts]). *)
Definition missingFields (frontmatter : PostFrontmatter) : list string :=
  let missing := [] in
  let missing := if negb (truthyField (fm_slug frontmatter))
                 then (missing ++ ["slug"])%list else missing in
  let missing := if negb (truthyField (fm_title frontmatter))
                 then (missing ++ ["title"])%list else missing in
  let missing := if negb (truthyField (fm_author frontmatter))
                 then (missing ++ ["author"])%list else missing in
  missing.

(** Lines 24-31 of [create-post.ts]: the validation of the required
    fields. *)
Definition validateRequired (frontmatter : PostFrontmatter) : Error + unit :=
  let missing := missingFields frontmatter in
  if (0 <? List.length missing)%nat then inl (ValidationError missing)
  else inr tt.

(** [createPost] from the parsed file on, up to the payload handed to
    the API client.  [frontmatter.slug!] is a type assertion only, so the
    three required fields stay optional values here; validation makes
    them present. *)
Definition createPostFrom (w : World) (filePath : string) (options : CommonOptions)
           (frontmatter : PostFrontmatter) (content : string) : M PostPayload :=
  match validateRequired frontmatter with
  | inl e => throw e
  | inr _ =>
    let payload :=
      mkPost (fm_slug frontmatter) (fm_title frontmatter) content
        (fm_author frontmatter) (fm_excerpt frontmatter)
        (fm_featured_image frontmatter) (fm_tags frontmatter) in
    _ <- loadKey w (keyfile options) ;;
    let basePath := getBasePath filePath in
    '(processedContent, featuredImageUrl) <-
       callProcessImages w content (fm_featured_image frontmatter)
         basePath (api options) ;;
    ret (mkPost (p_slug payload) (p_title payload) processedContent
           (p_author payload) (p_excerpt payload) (VStrOpt featuredImageUrl)
           (p_tags payload))
  end.

Definition createPost (w : World) (filePath : string) (options : CommonOptions)
  : M PostPayload :=
  match file w filePath with
  | None => throw (FileNotFoundError filePath)
  | Some f =>
      let '(frontmatter, content) := parseFrontmatter (f_text f) in
      createPostFrom w filePath options frontmatter content
  end.

(** The state of [updatePost] before the key is loaded: the payload, the
    base path, and the content and featured image still to be processed. *)
Record UpdateDraft : Type := mkDraft
  { d_payload : UpdatePayload;
    d_basePath : string;
    d_contentFromFile : option string;
    d_featuredImageFromFile : option FmValue }.

Definition emptyUpdate : UpdatePayload :=
  mkUpdate None None None None None None None.

Definition orKeep {A : Type} (cond : bool) (new old : option A) : option A :=
  if cond then new else old.

(** Lines 26-41: what an input file contributes. *)
Definition draftFromFile (filePath markdown : string) : UpdateDraft :=
  let '(frontmatter, content) := parseFrontmatter markdown in
  let payload :=
    mkUpdate
      (orKeep (truthyField (fm_slug frontmatter)) (fm_slug frontmatter) None)
      (orKeep (truthyField (fm_title frontmatter)) (fm_title frontmatter) None)
      None
      (orKeep (truthyField (fm_excerpt frontmatter)) (fm_excerpt frontmatter) None)
      None
      (orKeep (truthyField (fm_author frontmatter)) (fm_author frontmatter) None)
      (orKeep (truthyField (fm_tags frontmatter)) (fm_tags frontmatter) None) in
  mkDraft payload (getBasePath filePath)
    (orKeep (JS.truthy content) (Some content) None)
    (orKeep (truthyField (fm_featured_image frontmatter))
       (fm_featured_image frontmatter) None).

Definition splitTags (tags : option string) : option FmValue :=
  match tags with
  | Some t => Some (VArr (map JS.trim (JS.split "," t)))
  | None => None
  end.

(** Lines 44-53: "CLI options override file content". *)
Definition applyOverrides (options : UpdatePostOptions) (d : UpdateDraft)
  : UpdateDraft :=
  let p := d_payload d in
  let payload :=
    mkUpdate
      (orKeep (given (o_newSlug options)) (VStrOpt (o_newSlug options)) (u_slug p))
      (orKeep (given (o_title options)) (VStrOpt (o_title options)) (u_title p))
      (orKeep (given (o_content options)) (o_content options) (u_content p))
      (orKeep (given (o_excerpt options)) (VStrOpt (o_excerpt options)) (u_excerpt p))
      (u_featured_image p)
      (orKeep (given (o_author options)) (VStrOpt (o_author options)) (u_author p))
      (orKeep (given (o_tags options)) (splitTags (o_tags options)) (u_tags p)) in
  mkDraft payload (d_basePath d) (d_contentFromFile d)
    (orKeep (given (o_featuredImage options)) (VStrOpt (o_featuredImage options))
       (d_featuredImageFromFile d)).

(** [Object.keys(payload).length]. *)
Definition keyCount (p : UpdatePayload) : nat :=
  let count {A : Type} (o : option A) : nat :=
    match o with Some _ => 1 | None => 0 end in
  count (u_slug p) + count (u_title p) + count (u_content p)
  + count (u_excerpt p) + count (u_featured_image p) + count (u_author p)
  + count (u_tags p).

Definition noUpdatesMessage : string :=
  "No updates provided. Use --file or field options (--title, --content, etc.)".

(** [updatePost], up to the payload handed to the API client. *)
Definition updatePost (w : World) (slug : string) (options : UpdatePostOptions)
  : M UpdatePayload :=
  let start := mkDraft emptyUpdate "." None None in
  fromFile <-
    (if given (o_file options) then
       match o_file options with
       | Some filePath =>
           match file w filePath with
           | None => throw (FileNotFoundError filePath)
           | Some f => ret (draftFromFile filePath (f_text f))
           end
       | None => ret start
       end
     else ret start) ;;
  let d := applyOverrides options fromFile in
  let payload := d_payload d in
  let contentFromFile := d_contentFromFile d in
  let featuredImageFromFile := d_featuredImageFromFile d in
  let hasContentOrImages :=
    given contentFromFile || truthyField featuredImageFromFile in
  if (keyCount payload =? 0)%nat && negb hasContentOrImages then
    throw (PlainError noUpdatesMessage)
  else
    _ <- loadKey w (keyfile (o_common options)) ;;
    if hasContentOrImages then
      '(processedContent, featuredImageUrl) <-
         callProcessImages w
           (match contentFromFile with Some c => c | None => "" end)
           featuredImageFromFile (d_basePath d) (api (o_common options)) ;;
      let payload :=
        if given contentFromFile then
          mkUpdate (u_slug payload) (u_title payload) (Some processedContent)
            (u_excerpt payload) (u_featured_image payload) (u_author payload)
            (u_tags payload)
        else payload in
      let payload :=
        if truthyField featuredImageFromFile then
          mkUpdate (u_slug payload) (u_title payload) (u_content payload)
            (u_excerpt payload) featuredImageUrl (u_author payload)
            (u_tags payload)
        else payload in
      ret payload
    else ret payload.

(* ================================================================== *)
(** ** The commands: [delete-post.ts] and [store-key.ts] *)
(* ================================================================== *)

Record DeletePostOptions : Type := mkDeleteOptions
  { dl_common : CommonOptions; force : bool }.

Definition confirmPrompt (slug : string) : string :=
  "Are you sure you want to delete the post "
  ++ String Patterns.DQ slug ++ String Patterns.DQ "?".

(** The confirmation prompt; [answer] is [confirmation.confirmed], [None]
    when the user cancelled. *)
Definition confirm (answer : option bool) (message : string) : M (option bool) :=
  fun t => ((t ++ [EvPrompt message])%list, inr answer).

Definition postUrl (apiUrl slug : string) : string :=
  apiUrl ++ "/api/posts/" ++ slug.

(** [deletePost], up to the request handed to the API client: [None]
    when the deletion was cancelled (the command then returns normally),
    else the URL of the [DELETE] request. *)
Definition deletePost (w : World) (confirmed : option bool) (slug : string)
           (options : DeletePostOptions) : M (option string) :=
  cancelled <-
    (if negb (force options) then
       confirmation <- confirm confirmed (confirmPrompt slug) ;;
       ret (negb (match confirmation with Some b => b | None => false end))
     else ret false) ;;
  if cancelled then ret None
  else
    _ <- loadKey w (keyfile (dl_common options)) ;;
    ret (Some (postUrl (api (dl_common options)) slug)).

(** What [storeKey] talks to: the answers of the three password prompts
    ([None] when the user cancelled) and the nostr-tools functions
    ([None] when they throw). *)
Record KeyEntry : Type := mkKeyEntry
  { answerSecretKey : option string;
    answerPassword : option string;
    answerConfirmPassword : option string;
    nip19_decode : string -> option DecodedResult;
    publicKeyOf : list Byte.byte -> option string;
    nip49_encrypt : list Byte.byte -> string -> option string }.

(** Lines 13-36 of [store-key.ts]: the key as given on the command line,
    or else as typed at the prompt. *)
Definition secretKeyInput (k : KeyEntry) (nsecInput : option string)
  : Error + string :=
  if negb (given nsecInput) then
    match answerSecretKey k with
    | Some s => if negb (JS.truthy s) then inl AbortedError else inr s
    | None => inl AbortedError
    end
  else
    match nsecInput with
    | Some s => inr s
    | None => inl AbortedError
    end.

Definition passwordMismatch : string := "Passwords do not match".

(** [storeKey], up to [Bun.write]: the path and the text to write. *)
Definition storeKey (k : KeyEntry) (nsecInput : option string)
           (keyfilePath : string) : Error + (string * string) :=
  match secretKeyInput k nsecInput with
  | inl e => inl e
  | inr input =>
    match parseSecretKey (nip19_decode k) input with
    | inl e => inl e
    | inr secretKey =>
      match publicKeyOf k secretKey with
      | None => inl (LibraryError "getPublicKey")
      | Some _ =>
        match answerPassword k, answerConfirmPassword k with
        | Some password, Some confirmPassword =>
            if negb (JS.truthy password) || negb (JS.truthy confirmPassword)
            then inl AbortedError
            else if negb (String.eqb password confirmPassword)
            then inl (PlainError passwordMismatch)
            else
              match nip49_encrypt k secretKey password with
              | Some ncryptsec => inr (keyfilePath, ncryptsec)
              | None => inl (LibraryError "nip49.encrypt")
              end
        | _, _ => inl AbortedError
        end
      end
    end
  end.

(* ================================================================== *)
(** ** Concrete environments, used to run the model *)
(* ================================================================== *)

Module Scenario.

Definition q (s : string) : string :=
  String Patterns.DQ (s ++ String Patterns.DQ "").

Definition lines (l : list string) : string := String.concat JS.nl l.

Definition keyPath : string := "/home/user/.my2sats/nostr.key".

Definition secret : list Byte.byte := List.repeat Byte.x01 32.

Definition uploadedUrl : string := "https://cdn/x.png".

(** A world with the given files, in which the prompt answers
    [password], the keyfile decrypts under the password [hunter2] only,
    and every upload succeeds with [uploadedUrl]. *)
Definition world (files : list (string * File)) (password : option string)
  : World :=
  mkWorld (DEFAULTS keyPath)
    (fun p => match find (fun kv => String.eqb (fst kv) p) files with
              | Some kv => Some (snd kv)
              | None => None
              end)
    password
    (fun _ pw => if String.eqb pw "hunter2" then Some secret else None)
    (fun _ => Some "pubkey")
    (fun _ _ _ => Uploaded (mkUpload uploadedUrl "x.png" 10 "image/png")).

Definition keyfileOk : string * File :=
  (keyPath, mkFile "ncryptsec1qgg9947rlpvqu76pj5ecreduf9jxhselq2nae2kghhvd5g7dgjtcxfqtd67p9m0w57lspw8gsq6yphnm8623nsl8xn9j4jdzz84zm3frztj3z7s35vpzmqf6ksu8r89qk5z2zxfmu5gv8th8wclt0h4p" 162 "").

Definition keyfileBad : string * File :=
  (keyPath, mkFile "nsec1vl029mgpspedva04g90vltkh6fvh240zqtv9k0t9af8935ke9laqsnlfe5" 63 "").

Definition png (p : string) : string * File := (p, mkFile "" 10 "image/png").

Definition common : CommonOptions := mkCommon keyPath "http://localhost:3000".

(** The key of [crypto.test.ts] and two observations on a result. *)
Definition validHexKey : string :=
  "0123456789abcdef0123456789abcdef0123456789abcdef0123456789abcdef".

Definition lengthOk (r : Error + list Byte.byte) : bool :=
  match r with inr bytes => (List.length bytes =? 32)%nat | inl _ => false end.

Definition invalidKey (r : Error + list Byte.byte) : bool :=
  match r with inl (InvalidSecretKeyError _) => true | _ => false end.

(** A post with the title A and a body, and an update that gives the
    title B and a content on the command line. *)
Definition postFile : string * File :=
  ("posts/post.md",
   mkFile (lines ["---"; "title: A"; "---"; "file body"]) 27 "text/markdown").

Definition updateOptions : UpdatePostOptions :=
  mkUpdateOptions common (Some "posts/post.md") (Some "B") (Some "cli body")
    None None None None None.

(** A post with the three required fields. *)
Definition fullPost : string * File :=
  ("posts/full.md",
   mkFile (lines ["---"; "slug: my-post"; "title: A"; "author: me"; "---";
                  "file body"]) 55 "text/markdown").

(** Two adjacent delimiter lines, then a body with a horizontal rule. *)
Definition emptyBlockThenRule : string := lines ["---"; "---"; "A"; "---"; "B"].

(** A post whose slug is written as an empty list, and the same post
    with an empty slug. *)
Definition emptySlugPost : string * File :=
  ("posts/empty-slug.md",
   mkFile (lines ["---"; "slug: []"; "title: A"; "author: me"; "---";
                  "file body"]) 46 "text/markdown").

Definition noSlugPost : string * File :=
  ("posts/no-slug.md",
   mkFile (lines ["---"; "slug:"; "title: A"; "author: me"; "---";
                  "file body"]) 43 "text/markdown").

(** A deletion of the post [my-post], without [--force]. *)
Definition deleteOptions : DeletePostOptions := mkDeleteOptions common false.

(** The user types [validHexKey] and twice the password [hunter2]; the
    cipher is a stand-in that answers with the text of [keyfileOk]. *)
Definition keyEntry : KeyEntry :=
  mkKeyEntry (Some validHexKey) (Some "hunter2") (Some "hunter2")
    Nip19.decode (fun _ => Some "pubkey")
    (fun _ _ => Some (f_text (snd keyfileOk))).

(** The bytes of [validHexKey]. *)
Definition validKeyBytes : list Byte.byte :=
  match hexToBytes validHexKey with Some bytes => bytes | None => [] end.

(** A world in which the keyfile decrypts to [key]. *)
Definition worldOf (key : list Byte.byte) : World :=
  mkWorld (DEFAULTS keyPath)
    (fun p => if String.eqb p keyPath then Some (snd keyfileOk) else None)
    (Some "hunter2")
    (fun _ pw => if String.eqb pw "hunter2" then Some key else None)
    (fun _ => Some "pubkey")
    (fun _ _ _ => Failed "fetch").

End Scenario.

(* ================================================================== *)
(** ** Reference functions, for comparison with the patterns *)
(* ================================================================== *)

Module Reference.

Definition isQuote (c : ascii) : bool :=
  Ascii.eqb Patterns.DQ c || Ascii.eqb Patterns.SQ c.

(** Without its first character, when that is a quote. *)
Definition dropLeadingQuote (s : string) : string :=
  match s with
  | String c s' => if isQuote c then s' else s
  | "" => ""
  end.

(** Without its last character, when that is a quote. *)
Fixpoint dropTrailingQuote (s : string) : string :=
  match s with
  | "" => ""
  | String c "" => if isQuote c then "" else s
  | String c s' => String c (dropTrailingQuote s')
  end.

(** The last character, when it is a quote. *)
Fixpoint lastQuote (s : string) : option ascii :=
  match s with
  | "" => None
  | String c "" => if isQuote c then Some c else None
  | String _ s' => lastQuote s'
  end.

(** A match of a pattern with one capturing group, run from [pos] on the
    input [s] up to [e] with the captures [cs]: the group [n] captured a
    non-empty text that lies inside the matched text. *)
Definition Span (n pos : nat) (s : string) (e : nat) (cs : Regex.caps) : Prop :=
  exists pre p post rest,
    s = pre ++ p ++ post ++ rest
    /\ e = pos + String.length pre + String.length p + String.length post
    /\ p <> ""
    /\ cs = [(n, p)].

(** *** The two surface syntaxes of an image, read without the patterns *)


Fixpoint dropWhile (P : ascii -> bool) (s : string) : string :=
  match s with
  | String c s' => if P c then dropWhile P s' else s
  | "" => ""
  end.

(** [s] without the [literal] it starts with. *)
Fixpoint after (literal s : string) : option string :=
  match literal, s with
  | "", _ => Some s
  | String c l', String d s' => if Ascii.eqb c d then after l' s' else None
  | String _ _, "" => None
  end.
















(** *** The two syntaxes, stated *)







(** The text [v] does not go on with a character that satisfies [P]. *)
Definition headFails (P : ascii -> bool) (v : string) : Prop :=
  match v with
  | String c _ => P c = false
  | "" => True
  end.

End Reference.


(* ================================================================== *)
(** ** Facts about strings *)
(* ================================================================== *)

Module StringFacts.

Lemma length_app (u v : string) :
  String.length (u ++ v) = String.length u + String.length v.
Proof. induction u as [|c u IH]; simpl; [reflexivity | now rewrite IH]. Qed.

Lemma app_assoc (u v w : string) : (u ++ v) ++ w = u ++ (v ++ w).
Proof. induction u as [|c u IH]; simpl; [reflexivity | now rewrite IH]. Qed.

Lemma app_empty_r (u : string) : u ++ "" = u.
Proof. induction u as [|c u IH]; simpl; [reflexivity | now rewrite IH]. Qed.

Lemma length_zero (s : string) : String.length s = 0 -> s = "".
Proof. destruct s; [reflexivity | discriminate]. Qed.

Lemma prefix_app (p r : string) : String.prefix p (p ++ r) = true.
Proof.
  induction p as [|c p IH]; simpl.
  - now destruct r.
  - destruct (ascii_dec c c) as [_|n]; [exact IH | now elim n].
Qed.

Lemma prefix_inv (p s : string) :
  String.prefix p s = true -> exists r, s = p ++ r.
Proof.
  revert s; induction p as [|c p IH]; intros s H.
  - now exists s.
  - destruct s as [|d s]; simpl in H; [discriminate|].
    destruct (ascii_dec c d) as [->|]; [|discriminate].
    destruct (IH _ H) as [r ->]. now exists r.
Qed.

Lemma prefix_iff (p s : string) :
  String.prefix p s = true <-> exists r, s = p ++ r.
Proof.
  split; [apply prefix_inv | intros [r ->]; apply prefix_app].
Qed.

Lemma substring_app_l (u v : string) :
  String.substring 0 (String.length u) (u ++ v) = u.
Proof.
  induction u as [|c u IH]; simpl.
  - now destruct v.
  - now rewrite IH.
Qed.

Lemma drop_app (u v : string) : Regex.drop (String.length u) (u ++ v) = v.
Proof. induction u as [|c u IH]; simpl; [reflexivity | exact IH]. Qed.

Lemma truthy_iff (s : string) : JS.truthy s = true <-> s <> "".
Proof. destruct s; simpl; split; congruence. Qed.

End StringFacts.

(* ================================================================== *)
(** ** Facts about the matcher *)
(* ================================================================== *)

Module RegexFacts.
Import Regex StringFacts.

Lemma starLoop_ext body greedy :
  Extensional body ->
  forall fuel, Extensional (fun pos s cs k => starLoop body greedy k fuel pos s cs).
Proof.
  intros Hb fuel; induction fuel as [|fuel IH]; intros pos s cs k1 k2 Hk.
  - simpl. specialize (Hk "" s cs eq_refl). simpl in Hk.
    rewrite Nat.add_0_r in Hk. now rewrite Hk.
  - simpl.
    assert (Hhere : k1 pos s cs = k2 pos s cs).
    { specialize (Hk "" s cs eq_refl). simpl in Hk.
      now rewrite Nat.add_0_r in Hk. }
    assert (Hagain :
      body pos s cs
        (fun pos1 s1 cs1 =>
           if (pos1 =? pos)%nat then None else starLoop body greedy k1 fuel pos1 s1 cs1)
      = body pos s cs
        (fun pos1 s1 cs1 =>
           if (pos1 =? pos)%nat then None else starLoop body greedy k2 fuel pos1 s1 cs1)).
    { apply Hb. intros u s' cs' ->.
      destruct (pos + String.length u =? pos)%nat; [reflexivity|].
      apply IH. intros u' s'' cs'' ->.
      rewrite <- Nat.add_assoc, <- length_app.
      apply Hk. now rewrite app_assoc. }
    now rewrite Hagain, Hhere.
Qed.

Lemma run_ext ci r : Extensional (run ci r).
Proof.
  induction r as [|c|neg items|r1 IH1 r2 IH2|r1 IH1 r2 IH2|greedy r1 IH1|n r1 IH1| |];
    intros pos s cs k1 k2 Hk; simpl.
  - specialize (Hk "" s cs eq_refl). simpl in Hk. now rewrite Nat.add_0_r in Hk.
  - destruct s as [|d s']; [reflexivity|].
    destruct (same ci c d); [|reflexivity].
    specialize (Hk (String d "") s' cs eq_refl). simpl in Hk.
    now rewrite Nat.add_1_r in Hk.
  - destruct s as [|d s']; [reflexivity|].
    destruct (classHas ci neg items d); [|reflexivity].
    specialize (Hk (String d "") s' cs eq_refl). simpl in Hk.
    now rewrite Nat.add_1_r in Hk.
  - apply IH1. intros u s' cs' ->. apply IH2. intros u' s'' cs'' ->.
    rewrite <- Nat.add_assoc, <- length_app. apply Hk. now rewrite app_assoc.
  - rewrite (IH1 pos s cs k1 k2 Hk), (IH2 pos s cs k1 k2 Hk). reflexivity.
  - apply (starLoop_ext (run ci r1) greedy IH1). exact Hk.
  - apply IH1. intros u s' cs' ->.
    apply (Hk u s' _ eq_refl).
  - destruct (pos =? 0)%nat; [|reflexivity].
    specialize (Hk "" s cs eq_refl). simpl in Hk. now rewrite Nat.add_0_r in Hk.
  - destruct s; [|reflexivity].
    specialize (Hk "" "" cs eq_refl). simpl in Hk. now rewrite Nat.add_0_r in Hk.
Qed.

Lemma starLoop_sound body greedy :
  Sound body ->
  forall fuel, Sound (fun pos s cs k => starLoop body greedy k fuel pos s cs).
Proof.
  intros Hb fuel; induction fuel as [|fuel IH]; intros pos s cs k res H.
  - simpl in H.
    assert (Hk : k pos s cs = Some res).
    { destruct greedy; [exact H | now destruct (k pos s cs)]. }
    exists "", s, cs. simpl. now rewrite Nat.add_0_r.
  - simpl in H.
    set (again := body pos s cs
           (fun pos1 s1 cs1 =>
              if (pos1 =? pos)%nat then None
              else starLoop body greedy k fuel pos1 s1 cs1)) in H.
    assert (Hcases : again = Some res \/ k pos s cs = Some res).
    { destruct greedy.
      - destruct again; [left; exact H | right; exact H].
      - destruct (k pos s cs); [right; exact H | left; exact H]. }
    destruct Hcases as [Ha|Hk].
    + apply Hb in Ha. destruct Ha as (u & s' & cs' & -> & Ha).
      destruct (pos + String.length u =? pos)%nat; [discriminate|].
      apply IH in Ha. destruct Ha as (u' & s'' & cs'' & -> & Ha).
      exists (u ++ u'), s'', cs''. split; [now rewrite app_assoc|].
      now rewrite length_app, Nat.add_assoc.
    + exists "", s, cs. simpl. now rewrite Nat.add_0_r.
Qed.

Lemma run_sound ci r : Sound (run ci r).
Proof.
  induction r as [|c|neg items|r1 IH1 r2 IH2|r1 IH1 r2 IH2|greedy r1 IH1|n r1 IH1| |];
    intros pos s cs k res H; simpl in H.
  - exists "", s, cs. simpl. now rewrite Nat.add_0_r.
  - destruct s as [|d s']; [discriminate|].
    destruct (same ci c d); [|discriminate].
    exists (String d ""), s', cs. simpl. now rewrite Nat.add_1_r.
  - destruct s as [|d s']; [discriminate|].
    destruct (classHas ci neg items d); [|discriminate].
    exists (String d ""), s', cs. simpl. now rewrite Nat.add_1_r.
  - apply IH1 in H. destruct H as (u & s' & cs' & -> & H).
    apply IH2 in H. destruct H as (u' & s'' & cs'' & -> & H).
    exists (u ++ u'), s'', cs''. split; [now rewrite app_assoc|].
    now rewrite length_app, Nat.add_assoc.
  - destruct (run ci r1 pos s cs k) eqn:E1.
    + injection H as <-. now apply IH1 in E1.
    + now apply IH2 in H.
  - now apply (starLoop_sound (run ci r1) greedy IH1) in H.
  - apply IH1 in H. destruct H as (u & s' & cs' & -> & H).
    now exists u, s', ((n, String.substring 0 (pos + String.length u - pos) (u ++ s')) :: cs').
  - destruct (pos =? 0)%nat; [|discriminate].
    exists "", s, cs. simpl. now rewrite Nat.add_0_r.
  - destruct s; [|discriminate].
    exists "", "", cs. simpl. now rewrite Nat.add_0_r.
Qed.

(** A continuation that always fails makes the match fail. *)
Lemma run_none ci r pos s cs :
  run ci r pos s cs (fun _ _ _ => None) = None.
Proof.
  destruct (run ci r pos s cs (fun _ _ _ => None)) eqn:E; [|reflexivity].
  apply run_sound in E. destruct E as (? & ? & ? & _ & E). discriminate.
Qed.

(** The fuel of a star is enough: more fuel changes nothing. *)
Lemma starLoop_fuel body greedy (k : cont) :
  Extensional body -> Sound body ->
  forall f1 f2 pos s cs,
    String.length s <= f1 -> String.length s <= f2 ->
    starLoop body greedy k f1 pos s cs = starLoop body greedy k f2 pos s cs.
Proof.
  intros Hext Hsound.
  assert (Hstuck : forall pos cs (k' : cont),
             body pos "" cs
               (fun pos1 s1 cs1 => if (pos1 =? pos)%nat then None else k' pos1 s1 cs1)
             = None).
  { intros pos cs k'.
    match goal with |- ?lhs = None => destruct lhs eqn:E end; [|reflexivity].
    apply Hsound in E. destruct E as (u & s' & cs' & Hs & E).
    destruct u; [|discriminate]. simpl in E.
    rewrite Nat.add_0_r, Nat.eqb_refl in E. discriminate. }
  induction f1 as [|f1 IH]; intros f2 pos s cs H1 H2.
  - apply Nat.le_0_r, length_zero in H1. subst s.
    destruct f2 as [|f2]; [reflexivity|]. simpl. now rewrite Hstuck.
  - destruct f2 as [|f2].
    + apply Nat.le_0_r, length_zero in H2. subst s. simpl. now rewrite Hstuck.
    + simpl.
      assert (Hagain :
        body pos s cs
          (fun pos1 s1 cs1 =>
             if (pos1 =? pos)%nat then None else starLoop body greedy k f1 pos1 s1 cs1)
        = body pos s cs
          (fun pos1 s1 cs1 =>
             if (pos1 =? pos)%nat then None else starLoop body greedy k f2 pos1 s1 cs1)).
      { apply Hext. intros u s' cs' ->.
        destruct (pos + String.length u =? pos)%nat eqn:E; [reflexivity|].
        apply Nat.eqb_neq in E. rewrite length_app in H1, H2.
        apply IH; lia. }
      now rewrite Hagain.
Qed.

(** A match lies inside the input and [m_text] is the matched text. *)
Lemma matchAt_inv ci r pos s m :
  matchAt ci r pos s = Some m ->
  exists u s', s = u ++ s' /\ m_index m = pos
               /\ m_end m = pos + String.length u /\ m_text m = u.
Proof.
  unfold matchAt. intros H.
  destruct (run ci r pos s [] final) as [[e cs0]|] eqn:E;
    [|discriminate].
  injection H as <-. apply run_sound in E.
  destruct E as (u & s' & cs' & -> & E). injection E as <- <-.
  exists u, s'. simpl. repeat split.
  replace (pos + String.length u - pos) with (String.length u) by lia.
  apply substring_app_l.
Qed.

Lemma search_inv ci r : forall s pos m,
  search ci r pos s = Some m ->
  exists v u s', s = v ++ u ++ s' /\ m_index m = pos + String.length v
                 /\ m_end m = m_index m + String.length u /\ m_text m = u
                 /\ matchAt ci r (m_index m) (u ++ s') = Some m.
Proof.
  induction s as [|c s IH]; intros pos m H; simpl in H.
  - destruct (matchAt ci r pos "") eqn:E; [|discriminate].
    injection H as ->. destruct (matchAt_inv _ _ _ _ _ E) as (u & s' & Hs & Hi & He & Ht).
    exists "", u, s'. simpl. rewrite Nat.add_0_r, Hi.
    repeat split; try assumption. now rewrite <- Hs.
  - destruct (matchAt ci r pos (String c s)) eqn:E.
    + injection H as ->. destruct (matchAt_inv _ _ _ _ _ E) as (u & s' & Hs & Hi & He & Ht).
      exists "", u, s'. simpl. rewrite Nat.add_0_r, Hi.
      repeat split; try assumption. now rewrite <- Hs.
    + apply IH in H. destruct H as (v & u & s' & -> & Hi & He & Ht & Hm).
      exists (String c v), u, s'. simpl. rewrite Hi.
      repeat split; try assumption; try lia. now rewrite <- Hi.
Qed.

(** The fuel of the [exec] loop is enough. *)
Lemma execLoop_fuel ci r : forall f1 f2 pos s,
  String.length s < f1 -> String.length s < f2 ->
  execLoop f1 ci r pos s = execLoop f2 ci r pos s.
Proof.
  induction f1 as [|f1 IH]; intros f2 pos s H1 H2; [lia|].
  destruct f2 as [|f2]; [lia|]. simpl.
  destruct (search ci r pos s) as [m|] eqn:E; [|reflexivity].
  destruct (m_end m <=? m_index m)%nat eqn:El; [reflexivity|].
  apply Nat.leb_gt in El. f_equal.
  destruct (search_inv _ _ _ _ _ E) as (v & u & s' & -> & Hi & He & _ & _).
  replace (m_end m - pos) with (String.length (v ++ u)) by (rewrite length_app; lia).
  rewrite <- app_assoc, drop_app.
  rewrite !length_app in H1, H2. apply IH; lia.
Qed.

(** The fuel of the deleting [replace] is enough. *)
Lemma deleteLoop_fuel ci r : forall f1 f2 pos s,
  String.length s < f1 -> String.length s < f2 ->
  deleteLoop f1 ci r pos s = deleteLoop f2 ci r pos s.
Proof.
  induction f1 as [|f1 IH]; intros f2 pos s H1 H2; [lia|].
  destruct f2 as [|f2]; [lia|]. simpl.
  destruct (search ci r pos s) as [m|] eqn:E; [|reflexivity].
  destruct (search_inv _ _ _ _ _ E) as (v & u & s' & -> & Hi & He & _ & _).
  replace (m_end m - pos) with (String.length (v ++ u)) by (rewrite length_app; lia).
  rewrite <- app_assoc, drop_app.
  rewrite !length_app in H1, H2.
  destruct (m_end m =? m_index m)%nat eqn:Ee.
  - destruct s' as [|c s']; [reflexivity|].
    simpl in H1, H2. do 2 f_equal. apply IH; lia.
  - apply Nat.eqb_neq in Ee. f_equal. apply IH; lia.
Qed.

End RegexFacts.

(* ================================================================== *)
(** ** The map of paths to upload *)
(* ================================================================== *)

Module PathMapFacts.

Lemma mapHas_In (m : PathMap) (k : string) :
  mapHas m k = true <-> In k (mapKeys m).
Proof.
  induction m as [|[k' v] m IH]; simpl.
  - split; [discriminate | tauto].
  - rewrite Bool.orb_true_iff, String.eqb_eq, IH. tauto.
Qed.

Lemma mapKeys_set_present (m : PathMap) (k v : string) :
  mapHas m k = true -> mapKeys (mapSet m k v) = mapKeys m.
Proof.
  induction m as [|[k' v'] m IH]; simpl; [discriminate|].
  destruct (String.eqb k' k) eqn:E; simpl; [reflexivity|].
  intros H. now rewrite (IH H).
Qed.

Lemma mapKeys_set_absent (m : PathMap) (k v : string) :
  mapHas m k = false -> mapKeys (mapSet m k v) = (mapKeys m ++ [k])%list.
Proof.
  induction m as [|[k' v'] m IH]; simpl; [reflexivity|].
  destruct (String.eqb k' k) eqn:E; simpl; [discriminate|].
  intros H. now rewrite (IH H).
Qed.

Lemma mapGet_set_same (m : PathMap) (k v : string) :
  mapGet (mapSet m k v) k = Some v.
Proof.
  induction m as [|[k' v'] m IH]; simpl.
  - now rewrite String.eqb_refl.
  - destruct (String.eqb k' k) eqn:E; simpl; now rewrite E.
Qed.

Lemma mapGet_set_other (m : PathMap) (k k' v : string) :
  k <> k' -> mapGet (mapSet m k v) k' = mapGet m k'.
Proof.
  intros Hne. induction m as [|[k0 v0] m IH]; simpl.
  - apply String.eqb_neq in Hne. now rewrite Hne.
  - destruct (String.eqb k0 k) eqn:E; simpl.
    + apply String.eqb_eq in E. subst k0.
      apply String.eqb_neq in Hne. now rewrite Hne.
    + now rewrite IH.
Qed.

Lemma mapKeys_addPath (m : PathMap) (p : string) :
  mapKeys (addPath m p)
  = if mapHas m p then mapKeys m else (mapKeys m ++ [p])%list.
Proof.
  unfold addPath. destruct (mapHas m p) eqn:E; simpl; [reflexivity|].
  now apply mapKeys_set_absent.
Qed.

Lemma In_addPath (m : PathMap) (p k : string) :
  In k (mapKeys (addPath m p)) <-> In k (mapKeys m) \/ k = p.
Proof.
  rewrite mapKeys_addPath. destruct (mapHas m p) eqn:E.
  - apply mapHas_In in E. split; [tauto | intros [H| ->]; assumption].
  - rewrite in_app_iff. simpl. intuition congruence.
Qed.

Lemma NoDup_addPath (m : PathMap) (p : string) :
  NoDup (mapKeys m) -> NoDup (mapKeys (addPath m p)).
Proof.
  intros H. rewrite mapKeys_addPath. destruct (mapHas m p) eqn:E; [exact H|].
  assert (Hn : ~ In p (mapKeys m)).
  { intros Hin. apply mapHas_In in Hin. congruence. }
  clear E. induction (mapKeys m) as [|a l IH]; simpl.
  - constructor; [tauto | constructor].
  - inversion H; subst. constructor.
    + rewrite in_app_iff. simpl. intros [Hin|[->|[]]]; [tauto|].
      apply Hn. now left.
    + apply IH; [assumption|]. intros Hin. apply Hn. now right.
Qed.

Lemma In_addPaths (refs : list ImageReference) : forall (m : PathMap) (k : string),
  In k (mapKeys (fold_left (fun m ref => addPath m (path ref)) refs m))
  <-> In k (mapKeys m) \/ In k (map path refs).
Proof.
  induction refs as [|ref refs IH]; intros m k; simpl; [tauto|].
  rewrite IH, In_addPath. intuition congruence.
Qed.

Lemma NoDup_addPaths (refs : list ImageReference) : forall (m : PathMap),
  NoDup (mapKeys m) ->
  NoDup (mapKeys (fold_left (fun m ref => addPath m (path ref)) refs m)).
Proof.
  induction refs as [|ref refs IH]; intros m H; simpl; [exact H|].
  apply IH. now apply NoDup_addPath.
Qed.

(** The keys of [pathsToUpload]: the paths of the references and the
    featured image when it is local. *)
Lemma In_collectPaths (refs : list ImageReference) (featuredImage : option string)
      (k : string) :
  In k (mapKeys (collectPaths refs featuredImage))
  <-> In k (map path refs)
      \/ (featuredImage = Some k /\ featuredIsLocal featuredImage = true).
Proof.
  unfold collectPaths. destruct featuredImage as [f|].
  - destruct (featuredIsLocal (Some f)) eqn:E.
    + rewrite In_addPath, In_addPaths. simpl.
      intuition (subst; try congruence; auto).
    + rewrite In_addPaths. simpl. intuition congruence.
  - rewrite In_addPaths. simpl. intuition congruence.
Qed.

Lemma NoDup_collectPaths (refs : list ImageReference) (featuredImage : option string) :
  NoDup (mapKeys (collectPaths refs featuredImage)).
Proof.
  unfold collectPaths.
  assert (H : NoDup (mapKeys (fold_left (fun m ref => addPath m (path ref)) refs []))).
  { apply NoDup_addPaths. constructor. }
  destruct featuredImage as [f|]; [|exact H].
  destruct (featuredIsLocal (Some f)); [|exact H].
  now apply NoDup_addPath.
Qed.

End PathMapFacts.

(* ================================================================== *)
(** ** [isLocalPath] *)
(* ================================================================== *)

(** C10.  A string is classified as local exactly when it starts neither
    with the lower-case literal [http://] nor with the lower-case literal
    [https://].  So a path with another scheme ([ftp://host/x]) or with an
    upper-case scheme ([HTTP://host/x]) is local, and such a path joins
    the set of paths to upload, whether it comes from the content or is
    the featured image. *)
Theorem isLocalPath_only_lowercase_http :
  (forall s : string,
      isLocalPath s = true
      <-> ~ (exists r, s = "http://" ++ r) /\ ~ (exists r, s = "https://" ++ r))
  /\ isLocalPath "ftp://host/x" = true
  /\ isLocalPath "HTTP://host/x" = true
  /\ (forall content featuredImage ref,
         In ref (parseImageReferences content) ->
         In (path ref)
           (mapKeys (collectPaths (parseImageReferences content) featuredImage)))
  /\ (forall refs f,
         f <> "" -> isLocalPath f = true ->
         In f (mapKeys (collectPaths refs (Some f))))
  /\ mapKeys (collectPaths
                (parseImageReferences "![a](ftp://host/x) ![b](HTTP://host/y)")
                (Some "HTTP://host/z"))
     = ["ftp://host/x"; "HTTP://host/y"; "HTTP://host/z"].
Proof.
  split; [|split; [reflexivity|split; [reflexivity|split; [|split]]]].
  - intros s. unfold isLocalPath, JS.startsWith.
    rewrite Bool.andb_true_iff, !Bool.negb_true_iff.
    rewrite <- !Bool.not_true_iff_false, !StringFacts.prefix_iff. tauto.
  - intros content featuredImage ref Hin.
    apply PathMapFacts.In_collectPaths. left. now apply in_map.
  - intros refs f Hne Hloc.
    apply PathMapFacts.In_collectPaths. right. split; [reflexivity|].
    unfold featuredIsLocal. rewrite Hloc.
    apply StringFacts.truthy_iff in Hne. now rewrite Hne.
  - vm_compute. reflexivity.
Qed.

(* ================================================================== *)
(** ** Matches of the two image patterns *)
(* ================================================================== *)

Module ImagePatternFacts.
Import Regex Patterns StringFacts RegexFacts.

Lemma starLoop_transparent body greedy :
  Transparent body ->
  forall fuel, Transparent (fun pos s cs k => starLoop body greedy k fuel pos s cs).
Proof.
  intros Hb fuel; induction fuel as [|fuel IH]; intros pos s cs k res H.
  - simpl in H.
    assert (Hk : k pos s cs = Some res).
    { destruct greedy; [exact H | now destruct (k pos s cs)]. }
    exists "", s. simpl. now rewrite Nat.add_0_r.
  - simpl in H.
    set (again := body pos s cs
           (fun pos1 s1 cs1 =>
              if (pos1 =? pos)%nat then None
              else starLoop body greedy k fuel pos1 s1 cs1)) in H.
    assert (Hcases : again = Some res \/ k pos s cs = Some res).
    { destruct greedy.
      - destruct again; [left; exact H | right; exact H].
      - destruct (k pos s cs); [right; exact H | left; exact H]. }
    destruct Hcases as [Ha|Hk].
    + apply Hb in Ha. destruct Ha as (u & s' & -> & Ha).
      destruct (pos + String.length u =? pos)%nat; [discriminate|].
      apply IH in Ha. destruct Ha as (u' & s'' & -> & Ha).
      exists (u ++ u'), s''. split; [now rewrite app_assoc|].
      now rewrite length_app, Nat.add_assoc.
    + exists "", s. simpl. now rewrite Nat.add_0_r.
Qed.

Lemma run_groupFree ci r : groupFree r = true -> Transparent (run ci r).
Proof.
  induction r as [|c|neg items|r1 IH1 r2 IH2|r1 IH1 r2 IH2|greedy r1 IH1|n r1 IH1| |];
    simpl; intros Hg pos s cs k res H; simpl in H.
  - exists "", s. simpl. now rewrite Nat.add_0_r.
  - destruct s as [|d s']; [discriminate|].
    destruct (same ci c d); [|discriminate].
    exists (String d ""), s'. simpl. now rewrite Nat.add_1_r.
  - destruct s as [|d s']; [discriminate|].
    destruct (classHas ci neg items d); [|discriminate].
    exists (String d ""), s'. simpl. now rewrite Nat.add_1_r.
  - apply Bool.andb_true_iff in Hg. destruct Hg as [Hg1 Hg2].
    apply (IH1 Hg1) in H. destruct H as (u & s' & -> & H).
    apply (IH2 Hg2) in H. destruct H as (u' & s'' & -> & H).
    exists (u ++ u'), s''. split; [now rewrite app_assoc|].
    now rewrite length_app, Nat.add_assoc.
  - apply Bool.andb_true_iff in Hg. destruct Hg as [Hg1 Hg2].
    destruct (run ci r1 pos s cs k) eqn:E1.
    + injection H as <-. now apply (IH1 Hg1) in E1.
    + now apply (IH2 Hg2) in H.
  - now apply (starLoop_transparent (run ci r1) greedy (IH1 Hg)) in H.
  - discriminate.
  - destruct (pos =? 0)%nat; [|discriminate].
    exists "", s. simpl. now rewrite Nat.add_0_r.
  - destruct s; [|discriminate].
    exists "", "". simpl. now rewrite Nat.add_0_r.
Qed.

(** Peeling a capture-free head off a sequence. *)
Lemma run_seq_head ci r1 r2 pos s cs (k : cont) res :
  groupFree r1 = true ->
  run ci (Seq r1 r2) pos s cs k = Some res ->
  exists u s', s = u ++ s' /\ run ci r2 (pos + String.length u) s' cs k = Some res.
Proof.
  intros Hg H. simpl in H. now apply (run_groupFree ci r1 Hg) in H.
Qed.

(** A group [([...]+)] followed by a capture-free tail, at the end of a
    pattern: the group captures at least one character, and the match
    ends after it. *)
Lemma run_group_plus ci n neg items tail pos s e cs' :
  groupFree tail = true ->
  run ci (Seq (Group n (Plus true (Class neg items))) tail) pos s [] final
  = Some (e, cs') ->
  pos < e /\ exists p, p <> "" /\ cs' = [(n, p)].
Proof.
  intros Hg H. simpl in H.
  destruct s as [|d s0]; [discriminate|].
  destruct (classHas ci neg items d); [|discriminate].
  apply (starLoop_transparent (run ci (Class neg items)) true) in H;
    [|apply (run_groupFree ci (Class neg items) eq_refl)].
  destruct H as (u & s' & -> & H).
  apply (run_groupFree ci tail Hg) in H.
  destruct H as (u' & s'' & -> & H).
  unfold final in H.
  replace (S pos + String.length u - pos) with (S (String.length u)) in H by lia.
  cbn [substring] in H. injection H as He Hcs. subst e cs'.
  split; [lia|].
  eexists. split; [|reflexivity]. discriminate.
Qed.

Ltac peel H :=
  apply run_seq_head in H; [|reflexivity];
  let u := fresh "u" in
  let s' := fresh "s" in
  destruct H as (u & s' & -> & H).

(** Every markdown image match is non-empty and has a non-empty path. *)
Lemma markdown_match_nonempty pos s m :
  matchAt false markdownImageRegex pos s = Some m ->
  m_index m < m_end m
  /\ exists p, p <> "" /\ capture 1 (m_caps m) = Some p.
Proof.
  unfold matchAt. intros H.
  destruct (run false markdownImageRegex pos s [] final) as [[e cs]|] eqn:E;
    [|discriminate].
  injection H as <-. simpl.
  unfold markdownImageRegex, seqs in E. cbn [fold_right] in E.
  do 5 peel E.
  apply run_group_plus in E; [|reflexivity].
  destruct E as (Hlt & p & Hp & ->).
  split; [lia|]. exists p. split; [exact Hp|]. reflexivity.
Qed.

(** Every HTML image match is non-empty and has a non-empty path. *)
Lemma html_match_nonempty pos s m :
  matchAt true htmlImageRegex pos s = Some m ->
  m_index m < m_end m
  /\ exists p, p <> "" /\ capture 1 (m_caps m) = Some p.
Proof.
  unfold matchAt. intros H.
  destruct (run true htmlImageRegex pos s [] final) as [[e cs]|] eqn:E;
    [|discriminate].
  injection H as <-. simpl.
  unfold htmlImageRegex, seqs in E. cbn [fold_right] in E.
  do 4 peel E.
  apply run_group_plus in E; [|reflexivity].
  destruct E as (Hlt & p & Hp & ->).
  split; [lia|]. exists p. split; [exact Hp|]. reflexivity.
Qed.

(** Every element of [execAll] is a match of the pattern somewhere in
    the content. *)
Lemma execLoop_In ci r m : forall fuel pos s,
  In m (execLoop fuel ci r pos s) ->
  exists pos' s', matchAt ci r pos' s' = Some m.
Proof.
  induction fuel as [|fuel IH]; intros pos s H; simpl in H; [contradiction|].
  destruct (search ci r pos s) as [m0|] eqn:E; [|contradiction].
  assert (Hm0 : exists pos' s', matchAt ci r pos' s' = Some m0).
  { destruct (search_inv _ _ _ _ _ E) as (v & u & s' & _ & _ & _ & _ & Hm).
    now exists (m_index m0), (u ++ s'). }
  destruct (m_end m0 <=? m_index m0)%nat.
  - destruct H as [<-|[]]. exact Hm0.
  - destruct H as [<-|H]; [exact Hm0|]. now apply IH in H.
Qed.

Lemma execAll_In ci r m content :
  In m (execAll ci r content) -> exists pos' s', matchAt ci r pos' s' = Some m.
Proof. apply execLoop_In. Qed.

End ImagePatternFacts.

(* ================================================================== *)
(** ** [parseImageReferences] *)
(* ================================================================== *)

Module ScanFacts.
Import Regex.

(** What one scanning loop adds to [images]. *)
Lemma In_pushLocal (ref : ImageReference) : forall ms images,
  In ref (pushLocal images ms)
  <-> In ref images
      \/ exists m, In m ms
                   /\ capture 1 (m_caps m) = Some (path ref)
                   /\ original ref = m_text m
                   /\ path ref <> ""
                   /\ isLocalPath (path ref) = true.
Proof.
  induction ms as [|m ms IH]; intros images; simpl.
  - split; [tauto | intros [H|[m [[] _]]]; exact H].
  - destruct (capture 1 (m_caps m)) as [p|] eqn:Ec.
    + destruct (JS.truthy p && isLocalPath p) eqn:Et.
      * rewrite IH, in_app_iff. simpl.
        apply Bool.andb_true_iff in Et. destruct Et as [Et El].
        apply StringFacts.truthy_iff in Et.
        split.
        -- intros [[H|[<-|[]]]|(m' & Hin & H)].
           ++ now left.
           ++ right. exists m. simpl. repeat split; auto.
           ++ right. exists m'. split; [now right | exact H].
        -- intros [H|(m' & [<-|Hin] & Hc & Ho & Hn & Hl)].
           ++ left. now left.
           ++ left. right. left. destruct ref as [o q]. simpl in *.
              congruence.
           ++ right. exists m'. repeat split; assumption.
      * rewrite IH. split.
        -- intros [H|(m' & Hin & H)]; [now left|].
           right. exists m'. split; [now right | exact H].
        -- intros [H|(m' & [<-|Hin] & Hc & Ho & Hn & Hl)]; [now left| |].
           ++ rewrite Ec in Hc. injection Hc as ->.
              apply StringFacts.truthy_iff in Hn. rewrite Hn, Hl in Et.
              discriminate.
           ++ right. exists m'. repeat split; assumption.
    + rewrite IH. split.
      * intros [H|(m' & Hin & H)]; [now left|].
        right. exists m'. split; [now right | exact H].
      * intros [H|(m' & [<-|Hin] & Hc & Ho & Hn & Hl)]; [now left| |].
        -- congruence.
        -- right. exists m'. repeat split; assumption.
Qed.

End ScanFacts.

(* ================================================================== *)
(** ** The two image patterns and the syntaxes they recognise *)
(* ================================================================== *)

Module MarkerFacts.
Import Regex Patterns StringFacts RegexFacts Reference.
















(** Literal text, with and without the [i] flag. *)
Lemma run_Lit_after (l : string) : forall pos s cs (k : cont),
  run false (Lit l) pos s cs k
  = match after l s with
    | Some s' => k (pos + String.length l) s' cs
    | None => None
    end.
Proof.
  induction l as [|c l IH]; intros pos s cs k; simpl.
  - now rewrite Nat.add_0_r.
  - destruct s as [|d s]; [reflexivity|].
    unfold same, canonicalize. destruct (Ascii.eqb c d); [|reflexivity].
    rewrite IH. now replace (S pos + String.length l)
      with (pos + S (String.length l)) by lia.
Qed.

















Lemma run_Char_nil ci c pos cs (k : cont) : run ci (Char c) pos "" cs k = None.
Proof. reflexivity. Qed.
















(** A pattern with one group that recognises [image], run with the [g]
    flag by the [exec] loop of the source, finds the images of the scan
    from left to right. *)
Section Scan.

Variable ci : bool.
Variable r : regex.
Variable image : string -> option (string * string).

Hypothesis Hrun : forall pos s,
  run ci r pos s [] final
  = match image s with
    | Some (o, p) => Some (pos + String.length o, [(1, p)])
    | None => None
    end.

Hypothesis Himage : forall s o p,
  image s = Some (o, p) ->
  (exists rest, s = o ++ rest) /\ o <> "" /\ JS.truthy p = true.





End Scan.


(** *** The reference functions recognise the stated syntaxes *)


Lemma headFails_drop (P : ascii -> bool) (s : string) :
  headFails P (dropWhile P s).
Proof.
  induction s as [|c s IH]; [exact I|]. cbn [dropWhile].
  destruct (P c) eqn:E; [exact IH | exact E].
Qed.













(** *** The scan, stated: the leftmost image first, then what follows it *)



End MarkerFacts.



(* ================================================================== *)
(** ** Validation of the required fields ([createPost]) *)
(* ================================================================== *)

(** The part of C7 that holds.  The validation of [createPost] lists
    every required field ([slug], [title], [author], in this order) that
    is absent or the empty string, not only the first: the command fails
    with the [ValidationError] carrying that list, before any other
    interaction; and validation is passed exactly when none of the three
    fields is absent or the empty string.  A list, even the empty one,
    passes. *)
Theorem createPost_names_every_missing_field
        (w : World) (filePath : string) (options : CommonOptions)
        (frontmatter : PostFrontmatter) (content : string) (t : list Event) :
  let required :=
    [("slug", fm_slug frontmatter); ("title", fm_title frontmatter);
     ("author", fm_author frontmatter)] in
  let absentOrEmpty (v : option FmValue) := v = None \/ v = Some (VStr "") in
  missingFields frontmatter
  = map fst (filter (fun f => negb (truthyField (snd f))) required)
  /\ (forall name v, In (name, v) required ->
                     (In name (missingFields frontmatter) <-> absentOrEmpty v))
  /\ ((exists name v, In (name, v) required /\ absentOrEmpty v) ->
      createPostFrom w filePath options frontmatter content t
      = (t, inl (ValidationError (missingFields frontmatter))))
  /\ (validateRequired frontmatter = inr tt
      <-> forall name v, In (name, v) required -> ~ absentOrEmpty v).
Proof.
  intros required absentOrEmpty.
  assert (Hfalsy : forall v, truthyField v = false <-> absentOrEmpty v).
  { intros [[[|c s]|items]|]; unfold absentOrEmpty; simpl;
      split; intros H; try discriminate; auto;
      destruct H as [H|H]; discriminate. }
  assert (Hlist : missingFields frontmatter
                  = map fst (filter (fun f => negb (truthyField (snd f))) required)).
  { unfold missingFields, required. simpl.
    destruct (truthyField (fm_slug frontmatter)),
             (truthyField (fm_title frontmatter)),
             (truthyField (fm_author frontmatter)); reflexivity. }
  assert (Hin : forall name v, In (name, v) required ->
                     (In name (missingFields frontmatter) <-> absentOrEmpty v)).
  { intros name v Hreq. rewrite <- Hfalsy. unfold required in Hreq.
    unfold missingFields.
    destruct Hreq as [H|[H|[H|[]]]]; injection H as <- <-;
      destruct (truthyField (fm_slug frontmatter)),
               (truthyField (fm_title frontmatter)),
               (truthyField (fm_author frontmatter)); simpl;
        intuition discriminate. }
  split; [exact Hlist|]. split; [exact Hin|]. split.
  - intros (name & v & Hreq & Habs).
    apply (Hin name v Hreq) in Habs.
    unfold createPostFrom, validateRequired.
    destruct (missingFields frontmatter) as [|x l]; [contradiction|].
    reflexivity.
  - unfold validateRequired. split.
    + intros H name v Hreq Habs. apply (Hin name v Hreq) in Habs.
      destruct (missingFields frontmatter) as [|x l]; [contradiction|].
      discriminate.
    + intros H. rewrite Hlist. unfold required. simpl.
      assert (Hs : truthyField (fm_slug frontmatter) = true).
      { apply Bool.not_false_iff_true. rewrite Hfalsy.
        apply (H "slug"). unfold required. simpl. auto. }
      assert (Ht : truthyField (fm_title frontmatter) = true).
      { apply Bool.not_false_iff_true. rewrite Hfalsy.
        apply (H "title"). unfold required. simpl. auto. }
      assert (Ha : truthyField (fm_author frontmatter) = true).
      { apply Bool.not_false_iff_true. rewrite Hfalsy.
        apply (H "author"). unfold required. simpl. auto. }
      rewrite Hs, Ht, Ha. reflexivity.
Qed.

(** A front matter with a title only: both [slug] and [author] are
    named. *)
Lemma createPost_names_every_missing_field_witness :
  createPostFrom (Scenario.world [] None) "posts/post.md" Scenario.common
    (mkFrontmatter None (Some (VStr "A")) None None None None) "body" []
  = ([], inl (ValidationError ["slug"; "author"])).
Proof.
  apply (createPost_names_every_missing_field (Scenario.world [] None)
           "posts/post.md" Scenario.common
           (mkFrontmatter None (Some (VStr "A")) None None None None) "body" []).
  exists "slug", None. split; [now left | now left].
Defined.

(** C7, where the code departs from it.  The front matter line [slug: []]
    gives the slug the empty list, because the parser reads a bracketed
    value as a list for every key and not for the tags only.  The empty
    list is not a missing field for the validation: the command goes on,
    asks for the password and hands a post without a usable slug to the
    API client.  The same file with the line [slug:] is refused, and
    names the slug. *)
Theorem createPost_accepts_empty_list_slug :
  parseFrontmatter (f_text (snd Scenario.emptySlugPost))
  = (mkFrontmatter (Some (VArr [])) (Some (VStr "A")) (Some (VStr "me"))
       None None None, "file body")
  /\ validateRequired (fst (parseFrontmatter (f_text (snd Scenario.emptySlugPost))))
     = inr tt
  /\ createPost
       (Scenario.world [Scenario.keyfileOk; Scenario.emptySlugPost] (Some "hunter2"))
       "posts/empty-slug.md" Scenario.common []
     = ([EvPrompt passwordPrompt;
         EvDecrypt (f_text (snd Scenario.keyfileOk)) "hunter2"],
        inr (mkPost (Some (VArr [])) (Some (VStr "A")) "file body"
               (Some (VStr "me")) None None None))
  /\ createPost
       (Scenario.world [Scenario.keyfileOk; Scenario.noSlugPost] (Some "hunter2"))
       "posts/no-slug.md" Scenario.common []
     = ([], inl (ValidationError ["slug"])).
Proof. repeat split; vm_compute; reflexivity. Qed.

(* ================================================================== *)
(** ** [getSecretKey] *)
(* ================================================================== *)

(** C5.  [getSecretKey] fails with [KeyfileNotFoundError] when no file
    exists at the path; with [InvalidKeyfileError] when the file does not
    start with [ncryptsec1], before the prompt and before any decryption
    (nothing is added to the interactions); with [DecryptionError] when
    decryption with the password supplied does not give a key; and with
    [AbortedError], not [DecryptionError], when the prompt is cancelled,
    without any decryption attempt. *)
Theorem getSecretKey_failures (w : World) (keyfilePath : string) (t : list Event) :
  (file w keyfilePath = None ->
   getSecretKey w keyfilePath t = (t, inl (KeyfileNotFoundError keyfilePath)))
  /\ (forall f,
         file w keyfilePath = Some f ->
         JS.startsWith (f_text f) "ncryptsec1" = false ->
         getSecretKey w keyfilePath t = (t, inl InvalidKeyfileError))
  /\ (forall f password,
         file w keyfilePath = Some f ->
         JS.startsWith (f_text f) "ncryptsec1" = true ->
         promptPassword w = Some password -> password <> "" ->
         nip49_decrypt w (JS.trim (f_text f)) password = None ->
         getSecretKey w keyfilePath t
         = ((t ++ [EvPrompt passwordPrompt;
                   EvDecrypt (JS.trim (f_text f)) password])%list,
            inl DecryptionError))
  /\ (forall f,
         file w keyfilePath = Some f ->
         JS.startsWith (f_text f) "ncryptsec1" = true ->
         promptPassword w = None ->
         getSecretKey w keyfilePath t
         = ((t ++ [EvPrompt passwordPrompt])%list, inl AbortedError)).
Proof.
  unfold getSecretKey. repeat split.
  - intros ->. reflexivity.
  - intros f -> ->. reflexivity.
  - intros f password -> -> Hpw Hne Hdec.
    unfold bind, prompt, decrypt, throw. rewrite Hpw.
    apply StringFacts.truthy_iff in Hne. rewrite Hne. simpl.
    rewrite Hdec, <- app_assoc. reflexivity.
  - intros f -> -> Hpw. unfold bind, prompt, throw. rewrite Hpw. reflexivity.
Qed.

(** Each of the four failures, in a world where it happens. *)
Lemma getSecretKey_failures_witness :
  getSecretKey (Scenario.world [] (Some "hunter2")) Scenario.keyPath []
  = ([], inl (KeyfileNotFoundError Scenario.keyPath))
  /\ getSecretKey (Scenario.world [Scenario.keyfileBad] (Some "hunter2"))
       Scenario.keyPath []
     = ([], inl InvalidKeyfileError)
  /\ getSecretKey (Scenario.world [Scenario.keyfileOk] (Some "wrong"))
       Scenario.keyPath []
     = ([EvPrompt passwordPrompt;
         EvDecrypt (f_text (snd Scenario.keyfileOk)) "wrong"],
        inl DecryptionError)
  /\ getSecretKey (Scenario.world [Scenario.keyfileOk] None) Scenario.keyPath []
     = ([EvPrompt passwordPrompt], inl AbortedError).
Proof.
  split; [|split; [|split]].
  - apply (getSecretKey_failures (Scenario.world [] (Some "hunter2"))
             Scenario.keyPath []).
    reflexivity.
  - apply (getSecretKey_failures
             (Scenario.world [Scenario.keyfileBad] (Some "hunter2"))
             Scenario.keyPath [] : _ /\ _ /\ _)
      with (f := snd Scenario.keyfileBad); reflexivity.
  - apply (proj1 (proj2 (proj2 (getSecretKey_failures
             (Scenario.world [Scenario.keyfileOk] (Some "wrong"))
             Scenario.keyPath []))) (snd Scenario.keyfileOk) "wrong");
      try reflexivity. discriminate.
  - apply (proj2 (proj2 (proj2 (getSecretKey_failures
             (Scenario.world [Scenario.keyfileOk] None)
             Scenario.keyPath []))) (snd Scenario.keyfileOk)); reflexivity.
Defined.

(** C9.  With a keyfile that exists and starts with [ncryptsec1], an
    empty answer to the password prompt makes [getSecretKey] fail with
    [AbortedError], exactly as a cancelled prompt does, and the only
    interaction is the prompt: decryption is not attempted. *)
Theorem getSecretKey_empty_password_aborts
        (w : World) (keyfilePath : string) (f : File) (t : list Event) :
  file w keyfilePath = Some f ->
  JS.startsWith (f_text f) "ncryptsec1" = true ->
  promptPassword w = Some "" ->
  let cancelled :=
    mkWorld (config w) (file w) None (nip49_decrypt w) (getPublicKey w)
      (transport w) in
  getSecretKey w keyfilePath t
  = ((t ++ [EvPrompt passwordPrompt])%list, inl AbortedError)
  /\ getSecretKey w keyfilePath t = getSecretKey cancelled keyfilePath t
  /\ (forall ncryptsec password,
         ~ In (EvDecrypt ncryptsec password)
              (skipn (List.length t) (fst (getSecretKey w keyfilePath t)))).
Proof.
  intros Hf Hp Hpw cancelled.
  assert (H1 : getSecretKey w keyfilePath t
               = ((t ++ [EvPrompt passwordPrompt])%list, inl AbortedError)).
  { unfold getSecretKey, bind, prompt, throw. rewrite Hf, Hp, Hpw. reflexivity. }
  split; [exact H1|]. split.
  - rewrite H1. unfold getSecretKey, bind, prompt, throw, cancelled. simpl.
    rewrite Hf, Hp. reflexivity.
  - intros ncryptsec password. rewrite H1. simpl.
    rewrite skipn_app, skipn_all, Nat.sub_diag. simpl.
    intros [H|[]]. discriminate.
Qed.

Lemma getSecretKey_empty_password_aborts_witness :
  getSecretKey (Scenario.world [Scenario.keyfileOk] (Some "")) Scenario.keyPath []
  = ([EvPrompt passwordPrompt], inl AbortedError).
Proof.
  apply (getSecretKey_empty_password_aborts
           (Scenario.world [Scenario.keyfileOk] (Some "")) Scenario.keyPath
           (snd Scenario.keyfileOk) []); reflexivity.
Defined.

(* ================================================================== *)
(** ** The upload loop of [processImages] *)
(* ================================================================== *)

Module UploadFacts.
Import PathMapFacts.

Lemma validate_fullPath w p base f full :
  validateImageFile w p base = inr (f, full) -> full = resolvePath p base.
Proof.
  unfold validateImageFile.
  destruct (file w (resolvePath p base)); [|discriminate].
  destruct (f_size f0 >? maxImageSize (config w))%Z; [discriminate|].
  destruct (negb _); [discriminate|].
  intros H. now injection H as _ <-.
Qed.

Lemma existsb_eqb_In (x : string) (l : list string) :
  existsb (String.eqb x) l = true <-> In x l.
Proof.
  rewrite existsb_exists. split.
  - intros (y & Hin & Heq). apply String.eqb_eq in Heq. now subst.
  - intros Hin. exists x. split; [exact Hin | apply String.eqb_refl].
Qed.


Lemma uploadImage_cases w full api t :
  let outcome := transport w t full (api ++ "/api/uploads") in
  fst (uploadImage w full api t) = (t ++ [EvUpload full outcome])%list
  /\ match snd (uploadImage w full api t) with
     | inr r => outcome = Uploaded r
     | inl e => uploadError outcome = Some e
     end.
Proof.
  unfold uploadImage. destruct (transport w t full (api ++ "/api/uploads"));
    simpl; auto.
Qed.

(** A loop that ends normally has validated and uploaded every path, in
    order, once per element of the list, and has recorded each URL. *)
Lemma uploadLoop_ok w base api : forall paths m t t' m',
  uploadLoop w base api paths m t = (t', inr m') ->
  exists responses,
    List.length responses = List.length paths
    /\ t' = (t ++ uploadsOf base paths responses)%list
    /\ (forall p, In p paths -> exists f, validateImageFile w p base
                                          = inr (f, resolvePath p base))
    /\ (NoDup paths ->
        forall p r, In (p, r) (combine paths responses) ->
                    mapGet m' p = Some (url r))
    /\ (forall k, ~ In k paths -> mapGet m' k = mapGet m k).
Proof.
  induction paths as [|p paths IH]; intros m t t' m' H; simpl in H.
  - unfold ret in H. injection H as <- <-. exists []. simpl.
    rewrite app_nil_r. repeat split; try tauto.
  - destruct (validateImageFile w p base) as [e|[f full]] eqn:Ev;
      [discriminate|].
    pose proof (validate_fullPath _ _ _ _ _ Ev) as ->.
    unfold bind in H.
    pose proof (uploadImage_cases w (resolvePath p base) api t) as [Ht Hr].
    destruct (uploadImage w (resolvePath p base) api t) as [t1 [e|r]];
      [discriminate|].
    cbv zeta in Ht, Hr. cbn [fst snd] in Ht, Hr. rewrite Hr in Ht. subst t1.
    apply IH in H. destruct H as (rs & Hlen & -> & Hval & Hget & Hother).
    exists (r :: rs). simpl. split; [now rewrite Hlen|]. split.
    { unfold uploadsOf. simpl. rewrite <- app_assoc. reflexivity. }
    split.
    { intros p' [<-|Hin]; [now exists f | now apply Hval]. }
    split.
    { intros Hnd p' r' [Heq|Hin]; inversion Hnd; subst.
      - injection Heq as <- <-. rewrite Hother; [|assumption].
        apply mapGet_set_same.
      - now apply Hget. }
    { intros k Hk. rewrite Hother; [|tauto].
      apply mapGet_set_other. intros ->. apply Hk. now left. }
Qed.

(** A loop that throws stopped at the first path that failed: the
    paths before it were uploaded, and the error is the validation error
    of that path or the error of its upload, which is the last
    interaction. *)
Lemma uploadLoop_fail w base api : forall paths m t t' e,
  uploadLoop w base api paths m t = (t', inl e) ->
  exists before p after responses,
    paths = (before ++ p :: after)%list
    /\ List.length responses = List.length before
    /\ ((validateImageFile w p base = inl e
         /\ t' = (t ++ uploadsOf base before responses)%list)
        \/ (exists outcome,
               uploadError outcome = Some e
               /\ t' = (t ++ uploadsOf base before responses
                          ++ [EvUpload (resolvePath p base) outcome])%list)).
Proof.
  induction paths as [|p paths IH]; intros m t t' e H; simpl in H.
  - discriminate.
  - destruct (validateImageFile w p base) as [e0|[f full]] eqn:Ev.
    + unfold throw in H. injection H as <- <-.
      exists [], p, paths, []. simpl. rewrite app_nil_r. auto.
    + pose proof (validate_fullPath _ _ _ _ _ Ev) as ->.
      unfold bind in H.
      pose proof (uploadImage_cases w (resolvePath p base) api t) as [Ht Hr].
      destruct (uploadImage w (resolvePath p base) api t) as [t1 [e1|r]];
        cbv zeta in Ht, Hr; cbn [fst snd] in Ht, Hr;
        [|rewrite Hr in Ht]; subst t1.
      * injection H as <- <-.
        exists [], p, paths, []. simpl. split; [reflexivity|].
        split; [reflexivity|]. right. eexists. split; [exact Hr|reflexivity].
      * apply IH in H.
        destruct H as (before & p' & after & rs & -> & Hlen & Hcase).
        exists (p :: before), p', after, (r :: rs). simpl.
        split; [reflexivity|]. split; [now rewrite Hlen|].
        unfold uploadsOf. simpl.
        destruct Hcase as [[Hv ->]|(o & Ho & ->)].
        -- left. split; [exact Hv|]. now rewrite <- app_assoc.
        -- right. exists o. split; [exact Ho|]. now rewrite <- !app_assoc.
Qed.


Lemma uploadLoop_total w base api paths m t :
  exists evs, fst (uploadLoop w base api paths m t) = (t ++ evs)%list.
Proof.
  destruct (uploadLoop w base api paths m t) as [t' [e|m']] eqn:E.
  - apply uploadLoop_fail in E.
    destruct E as (before & p & after & rs & _ & _ & [[_ ->]|(o & _ & ->)]);
      eexists; reflexivity.
  - apply uploadLoop_ok in E. destruct E as (rs & _ & -> & _).
    eexists; reflexivity.
Qed.

End UploadFacts.

(* ================================================================== *)
(** ** [processImages] fails as a whole *)
(* ================================================================== *)



Example processImages_stops_at_missing_file :
  processImages (Scenario.world [Scenario.png "posts/a.png"] None)
    "![a](a.png) ![b](b.png)" None "posts" "http://localhost:3000" []
  = ([EvUpload "posts/a.png"
        (Uploaded (mkUpload Scenario.uploadedUrl "x.png" 10 "image/png"))],
     inl (ImageValidationError (ImageNotFound "posts/b.png"))).
Proof. vm_compute. reflexivity. Qed.

(* ================================================================== *)
(** ** [parseFrontmatter] on an empty delimiter block *)
(* ================================================================== *)

Module FrontmatterFacts.
Import Regex Patterns StringFacts.

Lemma same_false (c d : ascii) : same false c d = Ascii.eqb c d.
Proof. reflexivity. Qed.

Lemma anyChar_has (c : ascii) : classHas false false [CSpace; CNotSpace] c = true.
Proof. unfold classHas. simpl. now destruct (JS.isWhiteSpace c). Qed.

Lemma substring_all (s : string) : substring 0 (String.length s) s = s.
Proof. induction s as [|c s IH]; simpl; [reflexivity | now rewrite IH]. Qed.

(** A literal matches exactly when it is a prefix of the input. *)
Lemma run_Lit (lit : string) : forall pos s cs (k : cont),
  run false (Lit lit) pos s cs k
  = if String.prefix lit s
    then k (pos + String.length lit) (drop (String.length lit) s) cs
    else None.
Proof.
  induction lit as [|c lit IH]; intros pos s cs k.
  - simpl. rewrite Nat.add_0_r. now destruct s.
  - destruct s as [|d s]; [reflexivity|].
    cbn [Lit run prefix String.length drop]. rewrite same_false.
    destruct (ascii_dec c d) as [->|Hne].
    + rewrite Ascii.eqb_refl, IH.
      destruct (String.prefix lit s); [|reflexivity].
      f_equal. lia.
    + apply Ascii.eqb_neq in Hne. now rewrite Hne.
Qed.

(** [[\s\S]*] followed by something that only succeeds at the end of
    the input takes the whole input. *)
Lemma greedy_any_to_end (k : cont) :
  (forall p c s cs, k p (String c s) cs = None) ->
  forall s fuel pos cs,
    String.length s <= fuel ->
    starLoop (run false anyChar) true k fuel pos s cs
    = k (pos + String.length s) "" cs.
Proof.
  intros Hk. induction s as [|c s IH]; intros fuel pos cs Hfuel.
  - simpl String.length. rewrite Nat.add_0_r.
    destruct fuel; simpl; reflexivity.
  - destruct fuel as [|fuel]; [simpl in Hfuel; lia|].
    simpl in Hfuel. cbn [starLoop]. unfold anyChar at 1. cbn [run].
    rewrite anyChar_has.
    replace (S pos =? pos)%nat with false
      by (symmetry; apply Nat.eqb_neq; lia).
    rewrite IH by lia. cbn [String.length].
    replace (pos + S (String.length s)) with (S pos + String.length s) by lia.
    rewrite Hk. now destruct (k (S pos + String.length s) "" cs).
Qed.

(** [[\s\S]*?] followed by something that needs the literal [lit] next
    fails when [lit] occurs nowhere in the input. *)
Lemma lazy_any_none (lit : string) (k : cont) :
  (forall p s cs, String.prefix lit s = false -> k p s cs = None) ->
  forall s fuel pos cs i,
    JS.indexOfFrom lit s i = None ->
    starLoop (run false anyChar) false k fuel pos s cs = None.
Proof.
  intros Hk. induction s as [|c s IH]; intros fuel pos cs i Hnone;
    cbn [JS.indexOfFrom] in Hnone.
  - destruct (String.prefix lit "") eqn:Ep; [discriminate|].
    destruct fuel; cbn [starLoop]; rewrite (Hk _ _ _ Ep); reflexivity.
  - destruct (String.prefix lit (String c s)) eqn:Ep; [discriminate|].
    destruct fuel as [|fuel]; cbn [starLoop]; rewrite (Hk _ _ _ Ep);
      [reflexivity|].
    unfold anyChar at 1. cbn [run]. rewrite anyChar_has.
    replace (S pos =? pos)%nat with false
      by (symmetry; apply Nat.eqb_neq; lia).
    now apply (IH fuel (S pos) cs (S i)).
Qed.

(** A pattern that starts with [^] matches at position 0 only. *)
Lemma search_Bol_later (r : regex) : forall s pos,
  search false (Seq Bol r) (S pos) s = None.
Proof.
  induction s as [|c s IH]; intros pos; simpl; [reflexivity|].
  unfold matchAt. simpl. apply IH.
Qed.

Lemma matchFirst_Bol (r : regex) (s : string) :
  matchFirst false (Seq Bol r) s = matchAt false (Seq Bol r) 0 s.
Proof.
  unfold matchFirst. destruct s as [|c s]; simpl.
  - now destruct (matchAt false (Seq Bol r) 0 "").
  - destruct (matchAt false (Seq Bol r) 0 (String c s)); [reflexivity|].
    apply search_Bol_later.
Qed.

(** The pattern does not match when no closing delimiter follows the
    opening line. *)
Lemma frontmatter_no_closing (body : string) :
  JS.indexOf body closing = None ->
  matchFirst false frontmatterRegex (opening ++ body) = None.
Proof.
  intros Hnone. unfold frontmatterRegex, seqs. cbn [fold_right].
  rewrite matchFirst_Bol. unfold matchAt.
  cbn [run Nat.eqb]. rewrite run_Lit, prefix_app.
  change (String.length ("---" ++ JS.nl)) with (String.length opening).
  rewrite drop_app. cbn [run].
  rewrite (lazy_any_none closing) with (i := 0); [reflexivity| |exact Hnone].
  intros p s cs Hp. rewrite run_Lit. fold closing. now rewrite Hp.
Qed.

(** With an empty line between the delimiters the pattern matches, its
    first group is empty and its second group is everything after the
    closing delimiter. *)
Lemma frontmatter_empty_group (rest : string) :
  exists m,
    matchFirst false frontmatterRegex (opening ++ closing ++ rest) = Some m
    /\ capture 1 (m_caps m) = Some ""
    /\ capture 2 (m_caps m) = Some rest.
Proof.
  unfold frontmatterRegex, seqs. cbn [fold_right].
  rewrite matchFirst_Bol. unfold matchAt.
  cbn [run Nat.eqb]. rewrite run_Lit, prefix_app.
  change (String.length ("---" ++ JS.nl)) with (String.length opening).
  rewrite drop_app. cbn [run].
  (* the lazy star: zero iterations are tried first *)
  destruct (String.length (closing ++ rest)) as [|fuel] eqn:Efuel;
    [rewrite length_app in Efuel; discriminate|].
  cbn [starLoop].
  rewrite run_Lit. fold closing. rewrite prefix_app, drop_app.
  cbn [run].
  rewrite greedy_any_to_end; [|intros; reflexivity|lia].
  cbn [final]. unfold final.
  eexists. split; [reflexivity|]. cbn [m_caps capture Nat.eqb].
  split.
  - now rewrite Nat.sub_diag.
  - f_equal.
    replace (0 + String.length opening + String.length closing
             + String.length rest - (0 + String.length opening + String.length closing))
      with (String.length rest) by lia.
    apply substring_all.
Qed.

End FrontmatterFacts.

(** Where the parser does treat an empty block as no front matter.  When
    one empty line stands between the two delimiter lines, it returns the
    empty front matter and the whole input, delimiters included, as the
    content.  When the closing delimiter line follows the opening one at
    once, it does so provided no later line [---] followed by a line break
    occurs in the input. *)
Theorem parseFrontmatter_empty_block (rest : string) :
  let oneEmptyLine := "---" ++ JS.nl ++ JS.nl ++ "---" ++ JS.nl ++ rest in
  let adjacent := "---" ++ JS.nl ++ "---" ++ JS.nl ++ rest in
  parseFrontmatter oneEmptyLine = (emptyFrontmatter, oneEmptyLine)
  /\ (JS.indexOf ("---" ++ JS.nl ++ rest) (JS.nl ++ "---" ++ JS.nl) = None ->
      parseFrontmatter adjacent = (emptyFrontmatter, adjacent)).
Proof.
  intros oneEmptyLine adjacent. split.
  - destruct (FrontmatterFacts.frontmatter_empty_group rest) as (m & Hm & H1 & H2).
    unfold parseFrontmatter.
    change oneEmptyLine
      with (Patterns.opening ++ Patterns.closing ++ rest).
    rewrite Hm, H1, H2. reflexivity.
  - intros Hnone. unfold parseFrontmatter.
    change adjacent
      with (Patterns.opening ++ ("---" ++ JS.nl ++ rest)).
    now rewrite (FrontmatterFacts.frontmatter_no_closing _ Hnone).
Qed.

Lemma parseFrontmatter_empty_block_witness :
  parseFrontmatter (Scenario.lines ["---"; ""; "---"; "Content"])
  = (emptyFrontmatter, Scenario.lines ["---"; ""; "---"; "Content"])
  /\ parseFrontmatter (Scenario.lines ["---"; "---"; "Content"])
     = (emptyFrontmatter, Scenario.lines ["---"; "---"; "Content"]).
Proof.
  split.
  - apply (parseFrontmatter_empty_block "Content").
  - apply (parseFrontmatter_empty_block "Content"). reflexivity.
Defined.

(** C8, where the code departs from it.  Two adjacent delimiter lines
    are followed by a body that holds a horizontal rule.  The block
    between the delimiters is empty, yet the parser takes the text up to
    the rule for front matter and returns only the text after the rule:
    the line A of the body is lost.  With one empty line between the
    delimiters and the same body, and with adjacent delimiters and a body
    without a rule (the case of the test-suite of the repository), the
    whole input is returned. *)
Theorem parseFrontmatter_empty_block_drops_body :
  emptyDelimiterBlock Scenario.emptyBlockThenRule
  /\ parseFrontmatter Scenario.emptyBlockThenRule = (emptyFrontmatter, "B")
  /\ parseFrontmatter Scenario.emptyBlockThenRule
     <> (emptyFrontmatter, Scenario.emptyBlockThenRule)
  /\ parseFrontmatter (Scenario.lines ["---"; ""; "---"; "A"; "---"; "B"])
     = (emptyFrontmatter, Scenario.lines ["---"; ""; "---"; "A"; "---"; "B"])
  /\ parseFrontmatter (Scenario.lines ["---"; "---"; "Content"])
     = (emptyFrontmatter, Scenario.lines ["---"; "---"; "Content"]).
Proof.
  split; [|split; [|split; [|split]]].
  - exists ("A" ++ JS.nl ++ "---" ++ JS.nl ++ "B"). left. reflexivity.
  - vm_compute. reflexivity.
  - vm_compute. discriminate.
  - vm_compute. reflexivity.
  - vm_compute. reflexivity.
Qed.

(* ================================================================== *)
(** ** [processImages]: one upload per path, and the rewriting *)
(* ================================================================== *)

Module DedupFacts.

Lemma combine_partner {A B : Type} (x : A) : forall (xs : list A) (ys : list B),
  List.length ys = List.length xs -> In x xs ->
  exists y, In (x, y) (combine xs ys).
Proof.
  induction xs as [|a xs IH]; intros ys Hlen Hin; [contradiction|].
  destruct ys as [|b ys]; [discriminate|]. simpl in *.
  destruct Hin as [->|Hin].
  - exists b. now left.
  - destruct (IH ys) as [y Hy]; [lia|assumption|]. exists y. now right.
Qed.

(** A call that returns made exactly one upload per distinct path, in
    the order of discovery, and the URL returned for a local featured
    image is the URL of the upload of that same path. *)
Lemma processImages_uploads_once
      (w : World) (content : string) (featuredImage : option string)
      (basePath api : string) (t t' : list Event)
      (processed : string) (featuredImageUrl : option string) :
  processImages w content featuredImage basePath api t
  = (t', inr (processed, featuredImageUrl)) ->
  let paths := mapKeys (collectPaths (parseImageReferences content) featuredImage) in
  NoDup paths
  /\ exists responses,
       List.length responses = List.length paths
       /\ t' = (t ++ uploadsOf basePath paths responses)%list
       /\ (featuredIsLocal featuredImage = true ->
           exists f r, featuredImage = Some f
                       /\ In (f, r) (combine paths responses)
                       /\ featuredImageUrl = Some (url r)).
Proof.
  intros H paths. split; [apply PathMapFacts.NoDup_collectPaths|].
  unfold processImages in H.
  set (pathsToUpload := collectPaths (parseImageReferences content) featuredImage) in *.
  destruct (List.length pathsToUpload =? 0)%nat eqn:Elen.
  - unfold ret in H. injection H as <- <- <-.
    assert (Hnil : pathsToUpload = []).
    { apply Nat.eqb_eq in Elen. now destruct pathsToUpload. }
    exists []. unfold paths. rewrite Hnil. simpl. rewrite app_nil_r.
    repeat split.
    intros Hloc. destruct featuredImage as [f|]; [|discriminate].
    assert (Hin : In f (mapKeys pathsToUpload)).
    { apply PathMapFacts.In_collectPaths. right. now split. }
    rewrite Hnil in Hin. contradiction.
  - unfold bind in H.
    destruct (uploadLoop w basePath api (mapKeys pathsToUpload) pathsToUpload t)
      as [t1 [e|uploaded]] eqn:E; [discriminate|].
    unfold ret in H. injection H as <- <- <-.
    apply UploadFacts.uploadLoop_ok in E.
    destruct E as (rs & Hlen & -> & _ & Hget & _).
    exists rs. split; [exact Hlen|]. split; [reflexivity|].
    intros Hloc. destruct featuredImage as [f|]; [|discriminate].
    rewrite Hloc.
    assert (Hin : In f (mapKeys pathsToUpload)).
    { apply PathMapFacts.In_collectPaths. right. now split. }
    destruct (combine_partner f _ rs Hlen Hin) as [r Hr].
    exists f, r. split; [reflexivity|]. split; [exact Hr|].
    apply Hget; [apply PathMapFacts.NoDup_collectPaths | exact Hr].
Qed.

End DedupFacts.

(** The scenario of the specification: the same path twice, one upload,
    both spans rewritten; and the featured image sharing the upload. *)
Example processImages_same_path_twice :
  processImages (Scenario.world [Scenario.png "posts/./x.png"] None)
    "![a](./x.png) and ![b](./x.png)" (Some "./x.png") "posts"
    "http://localhost:3000" []
  = ([EvUpload "posts/./x.png"
        (Uploaded (mkUpload "https://cdn/x.png" "x.png" 10 "image/png"))],
     inr ("![a](https://cdn/x.png) and ![b](https://cdn/x.png)",
          Some "https://cdn/x.png")).
Proof. vm_compute. reflexivity. Qed.

(** C3, where the code departs from it.  The content [![x.png](x.png)]
    refers to the local path [x.png] once.  The path is uploaded once, but
    the span is not rewritten to the uploaded URL: [replace] substitutes
    the first occurrence of the path inside the span, which is the
    alternative text, and the image still points to the local path. *)
Theorem processImages_rewrites_first_occurrence :
  parseImageReferences "![x.png](x.png)" = [mkRef "![x.png](x.png)" "x.png"]
  /\ processImages (Scenario.world [Scenario.png "posts/x.png"] None)
       "![x.png](x.png)" None "posts" "http://localhost:3000" []
     = ([EvUpload "posts/x.png"
           (Uploaded (mkUpload "https://cdn/x.png" "x.png" 10 "image/png"))],
        inr ("![https://cdn/x.png](x.png)", None))
  /\ parseImageReferences "![https://cdn/x.png](x.png)"
     = [mkRef "![https://cdn/x.png](x.png)" "x.png"].
Proof. repeat split; vm_compute; reflexivity. Qed.

(* ================================================================== *)
(** ** [updatePost]: command-line options and the input file *)
(* ================================================================== *)

Module UpdateFacts.

(** The fields set on lines 45-53 are not touched afterwards: when the
    command reaches the API call, the slug, title, excerpt, author and
    tags given on the command line are those of the payload. *)
Lemma updatePost_options_win
      (w : World) (slug : string) (options : UpdatePostOptions)
      (t t' : list Event) (payload : UpdatePayload) :
  updatePost w slug options t = (t', inr payload) ->
  (given (o_newSlug options) = true ->
   u_slug payload = VStrOpt (o_newSlug options))
  /\ (given (o_title options) = true ->
      u_title payload = VStrOpt (o_title options))
  /\ (given (o_excerpt options) = true ->
      u_excerpt payload = VStrOpt (o_excerpt options))
  /\ (given (o_author options) = true ->
      u_author payload = VStrOpt (o_author options))
  /\ (given (o_tags options) = true ->
      u_tags payload = splitTags (o_tags options)).
Proof.
  unfold updatePost, bind. intros H.
  destruct ((if given (o_file options)
             then match o_file options with
                  | Some filePath =>
                      match file w filePath with
                      | Some f => ret (draftFromFile filePath (f_text f))
                      | None => throw (FileNotFoundError filePath)
                      end
                  | None => ret (mkDraft emptyUpdate "." None None)
                  end
             else ret (mkDraft emptyUpdate "." None None)) t)
    as [t0 [e|fromFile]]; [discriminate|].
  set (d := applyOverrides options fromFile) in *.
  assert (Hd :
    (given (o_newSlug options) = true ->
     u_slug (d_payload d) = VStrOpt (o_newSlug options))
    /\ (given (o_title options) = true ->
        u_title (d_payload d) = VStrOpt (o_title options))
    /\ (given (o_excerpt options) = true ->
        u_excerpt (d_payload d) = VStrOpt (o_excerpt options))
    /\ (given (o_author options) = true ->
        u_author (d_payload d) = VStrOpt (o_author options))
    /\ (given (o_tags options) = true ->
        u_tags (d_payload d) = splitTags (o_tags options))).
  { unfold d, applyOverrides, orKeep. simpl.
    repeat split; intros ->; reflexivity. }
  destruct ((keyCount (d_payload d) =? 0)%nat
            && negb (given (d_contentFromFile d)
                     || truthyField (d_featuredImageFromFile d)));
    [discriminate|].
  destruct (loadKey w (keyfile (o_common options)) t0) as [t1 [e|key]];
    [discriminate|].
  destruct (given (d_contentFromFile d) || truthyField (d_featuredImageFromFile d)).
  - destruct (callProcessImages w _ _ _ _ t1) as [t2 [e|[processed fUrl]]];
      [discriminate|].
    unfold ret in H. injection H as _ <-.
    repeat match goal with
           | |- context [if ?c then _ else _] => destruct c
           end; simpl; exact Hd.
  - unfold ret in H. injection H as _ <-. exact Hd.
Qed.

(** A featured image that is not local comes back from [processImages]
    as it went in. *)
Lemma processImages_remote_featured
      (w : World) (content f : string) (basePath api : string)
      (t t' : list Event) (processed : string) (featuredImageUrl : option string) :
  isLocalPath f = false ->
  processImages w content (Some f) basePath api t
  = (t', inr (processed, featuredImageUrl)) ->
  featuredImageUrl = Some f.
Proof.
  intros Hremote. unfold processImages, featuredIsLocal. rewrite Hremote.
  rewrite Bool.andb_false_r.
  destruct (List.length _ =? 0)%nat.
  - unfold ret. intros H. now injection H as _ _ <-.
  - unfold bind.
    destruct (uploadLoop w basePath api _ _ t) as [t1 [e|uploaded]];
      [discriminate|].
    unfold ret. intros H. now injection H as _ _ <-.
Qed.



(** Without an input file the content of the command line is the content
    of the payload; and a featured image given on the command line as a
    URL is the featured image of the payload, whatever the file says. *)
Lemma updatePost_content_and_image
      (w : World) (slug : string) (options : UpdatePostOptions)
      (t t' : list Event) (payload : UpdatePayload) :
  updatePost w slug options t = (t', inr payload) ->
  (o_file options = None -> given (o_content options) = true ->
   u_content payload = o_content options)
  /\ (forall f, o_featuredImage options = Some f -> f <> "" ->
                isLocalPath f = false ->
                u_featured_image payload = Some f).
Proof.
  unfold updatePost, bind. cbv zeta. intros H.
  destruct ((if given (o_file options)
             then match o_file options with
                  | Some filePath =>
                      match file w filePath with
                      | Some f => ret (draftFromFile filePath (f_text f))
                      | None => throw (FileNotFoundError filePath)
                      end
                  | None => ret (mkDraft emptyUpdate "." None None)
                  end
             else ret (mkDraft emptyUpdate "." None None)) t)
    as [t0 [e|fromFile]] eqn:Efile; [discriminate|].
  assert (Hstart : o_file options = None ->
                   fromFile = mkDraft emptyUpdate "." None None).
  { intros Hnone. rewrite Hnone in Efile. simpl in Efile.
    unfold ret in Efile. now injection Efile as _ <-. }
  destruct ((keyCount _ =? 0)%nat && _); [discriminate|].
  destruct (loadKey w (keyfile (o_common options)) t0) as [t1 [e|key]];
    [discriminate|].
  split.
  - intros Hnone Hgiven. rewrite (Hstart Hnone) in H.
    unfold applyOverrides, orKeep in H. simpl in H. rewrite Hgiven in H.
    destruct (given (o_featuredImage options)) eqn:Ei; simpl in H.
    + destruct (truthyField (VStrOpt (o_featuredImage options))) eqn:Et.
      * destruct (callProcessImages w _ _ _ _ t1) as [t2 [e|[processed fUrl]]];
          [discriminate|].
        unfold ret in H. now injection H as _ <-.
      * unfold ret in H. now injection H as _ <-.
    + unfold ret in H. now injection H as _ <-.
  - intros f Hf Hne Hremote.
    apply StringFacts.truthy_iff in Hne.
    unfold applyOverrides, orKeep in H. simpl in H.
    rewrite Hf in H. simpl in H. rewrite Hne in H. simpl in H.
    rewrite Hne, Bool.orb_true_r in H.
    destruct (processImages w _ (Some f) _ _ t1) as [t2 [e|[processed fUrl]]] eqn:Ecall;
      [discriminate|].
    apply (processImages_remote_featured _ _ _ _ _ _ _ _ _ Hremote) in Ecall.
    subst fUrl. unfold ret in H.
    destruct (given (d_contentFromFile fromFile)); now injection H as _ <-.
Qed.

End UpdateFacts.

(** C1, where the code departs from it.  The file gives the title A and
    a body; the command line gives the title B and a content.  The
    payload sent carries the title B, but its content is the body of the
    file: the content given on the command line is overwritten when the
    processed file content is stored into the payload. *)
Theorem updatePost_file_content_beats_option :
  parseFrontmatter (f_text (snd Scenario.postFile))
  = (mkFrontmatter None (Some (VStr "A")) None None None None, "file body")
  /\ o_title Scenario.updateOptions = Some "B"
  /\ o_content Scenario.updateOptions = Some "cli body"
  /\ updatePost
       (Scenario.world [Scenario.keyfileOk; Scenario.postFile] (Some "hunter2"))
       "my-post" Scenario.updateOptions []
     = ([EvPrompt passwordPrompt;
         EvDecrypt (f_text (snd Scenario.keyfileOk)) "hunter2"],
        inr (mkUpdate None (Some (VStr "B")) (Some "file body") None None None None)).
Proof. repeat split; vm_compute; reflexivity. Qed.

(* ================================================================== *)
(** ** [parseSecretKey] *)
(* ================================================================== *)

Module SecretKeyFacts.
Import Regex Patterns StringFacts.

Lemma hexClass_has (c : ascii) : classHas false false hexClass c = isHexDigit c.
Proof.
  destruct c as [[] [] [] [] [] [] [] []]; vm_compute; reflexivity.
Qed.

(** [n] repetitions of a class consume [n] characters of the class. *)
Lemma run_Repeat_class ci neg items : forall n pos s cs (k : cont),
  run ci (Repeat n (Class neg items)) pos s cs k
  = if (n <=? String.length s)%nat
       && allChars (classHas ci neg items) (substring 0 n s)
    then k (pos + n) (drop n s) cs
    else None.
Proof.
  induction n as [|n IH]; intros pos s cs k.
  - simpl. rewrite Nat.add_0_r. now destruct s.
  - destruct s as [|d s]; [reflexivity|].
    cbn [Repeat run]. cbn [String.length substring drop allChars].
    change (S n <=? S (String.length s))%nat
      with (n <=? String.length s)%nat.
    destruct (classHas ci neg items d);
      [|now rewrite Bool.andb_false_l, Bool.andb_false_r].
    rewrite IH, Bool.andb_true_l.
    destruct ((n <=? String.length s)%nat && _); [|reflexivity].
    f_equal. lia.
Qed.

Lemma drop_empty (n : nat) (s : string) :
  drop n s = "" <-> String.length s <= n.
Proof.
  revert s; induction n as [|n IH]; intros [|c s]; simpl; split; intros H;
    try reflexivity; try lia; try discriminate.
  - apply IH in H. lia.
  - apply IH. lia.
Qed.

Lemma substring_whole (n : nat) (s : string) :
  String.length s <= n -> substring 0 n s = s.
Proof.
  revert n; induction s as [|c s IH]; intros [|n] H; simpl in *;
    try reflexivity; try lia.
  rewrite IH; [reflexivity | lia].
Qed.

Lemma allChars_ext (P Q : ascii -> bool) (s : string) :
  (forall c, P c = Q c) -> allChars P s = allChars Q s.
Proof.
  intros H. induction s as [|c s IH]; simpl; [reflexivity|].
  now rewrite H, IH.
Qed.

(** The hexadecimal pattern accepts exactly the strings of 64
    hexadecimal digits. *)
Lemma hexKey_test (s : string) :
  test false hexKeyRegex s
  = (String.length s =? 64)%nat && allChars isHexDigit s.
Proof.
  unfold test, hexKeyRegex, seqs. cbn [fold_right].
  rewrite FrontmatterFacts.matchFirst_Bol. unfold matchAt.
  cbn [run Nat.eqb]. fold hexClass. rewrite run_Repeat_class.
  destruct (64 <=? String.length s)%nat eqn:Ele.
  - apply Nat.leb_le in Ele. rewrite Bool.andb_true_l.
    destruct (String.length s =? 64)%nat eqn:Eeq.
    + apply Nat.eqb_eq in Eeq.
      rewrite substring_whole by lia.
      rewrite (allChars_ext _ _ s hexClass_has).
      destruct (allChars isHexDigit s); [|reflexivity].
      cbn [run]. replace (drop 64 s) with "" by (symmetry; apply drop_empty; lia).
      reflexivity.
    + apply Nat.eqb_neq in Eeq.
      destruct (allChars _ _); [|reflexivity].
      cbn [run]. destruct (drop 64 s) eqn:Ed; [|reflexivity].
      apply drop_empty in Ed. lia.
  - apply Nat.leb_gt in Ele. simpl.
    replace (String.length s =? 64)%nat with false
      by (symmetry; apply Nat.eqb_neq; lia).
    reflexivity.
Qed.

Lemma hexToBytes_length : forall n s,
  String.length s = 2 * n -> allChars isHexDigit s = true ->
  exists bytes, hexToBytes s = Some bytes /\ List.length bytes = n.
Proof.
  induction n as [|n IH]; intros s Hlen Hall.
  - destruct s; [|discriminate]. now exists [].
  - destruct s as [|hi [|lo s]]; try (simpl in Hlen; lia).
    simpl in Hall. unfold isHexDigit in Hall.
    destruct (hexDigit hi) as [h|] eqn:Eh; [|discriminate].
    destruct (hexDigit lo) as [l|] eqn:El; [|discriminate].
    simpl in Hall. destruct (IH s) as (bytes & Hb & Hn);
      [simpl in Hlen; lia | exact Hall |].
    exists (byte_of_ascii (ascii_of_nat (16 * h + l)) :: bytes).
    cbn [hexToBytes]. rewrite Eh, El, Hb. split; [reflexivity|].
    simpl. now rewrite Hn.
Qed.

Lemma hex_not_nsec (s : string) :
  allChars isHexDigit s = true -> JS.startsWith s "nsec1" = false.
Proof.
  destruct s as [|c s]; [reflexivity|]. cbn [allChars]. intros H.
  apply Bool.andb_true_iff in H. destruct H as [H _].
  unfold JS.startsWith. cbn [String.prefix].
  destruct (ascii_dec "n" c) as [<-|]; [discriminate|reflexivity].
Qed.

Section AnyCodec.
Variable decode : string -> option DecodedResult.

(** Sixty-four hexadecimal digits, in either case and with white
    space around, give thirty-two bytes. *)
Lemma parseSecretKey_hex (input : string) :
  String.length (JS.trim input) = 64 ->
  allChars isHexDigit (JS.trim input) = true ->
  exists bytes, parseSecretKey decode input = inr bytes
                /\ List.length bytes = 32.
Proof.
  intros Hlen Hall. unfold parseSecretKey.
  rewrite (hex_not_nsec _ Hall), hexKey_test, Hlen, Hall. simpl.
  destruct (hexToBytes_length 32 _ Hlen Hall) as (bytes & -> & Hn).
  now exists bytes.
Qed.

(** Anything else that does not start with [nsec1] is refused with
    [InvalidSecretKeyError]. *)
Lemma parseSecretKey_not_hex (input : string) :
  JS.startsWith (JS.trim input) "nsec1" = false ->
  (String.length (JS.trim input) =? 64)%nat
  && allChars isHexDigit (JS.trim input) = false ->
  parseSecretKey decode input
  = inl (InvalidSecretKeyError defaultInvalidSecretKey).
Proof.
  intros Hp Hbad. unfold parseSecretKey.
  now rewrite Hp, hexKey_test, Hbad.
Qed.

(** An [nsec1] string goes to the codec, and what the codec throws
    leaves [parseSecretKey] as it is. *)
Lemma parseSecretKey_codec_throws (input : string) :
  JS.startsWith (JS.trim input) "nsec1" = true ->
  decode (JS.trim input) = None ->
  parseSecretKey decode input = inl (LibraryError "nip19.decode").
Proof.
  intros Hp Hd. unfold parseSecretKey. now rewrite Hp, Hd.
Qed.

End AnyCodec.

End SecretKeyFacts.

(** C4, where the code departs from it.  [nsec1invalid] has the wrong
    length and the wrong character set for an encoded private key.  The
    bech32 codec throws on it, and [parseSecretKey] lets that error
    through: the failure is not an [InvalidSecretKeyError]. *)
Theorem parseSecretKey_codec_error_escapes :
  JS.startsWith (JS.trim "nsec1invalid") "nsec1" = true
  /\ Nip19.decode "nsec1invalid" = None
  /\ parseSecretKey Nip19.decode "nsec1invalid" = inl (LibraryError "nip19.decode")
  /\ (forall message,
         parseSecretKey Nip19.decode "nsec1invalid"
         <> inl (InvalidSecretKeyError message)).
Proof.
  split; [reflexivity|]. split; [vm_compute; reflexivity|].
  split; [vm_compute; reflexivity|].
  intros message.
  rewrite (SecretKeyFacts.parseSecretKey_codec_throws Nip19.decode "nsec1invalid");
    [discriminate | reflexivity | vm_compute; reflexivity].
Qed.

(* ================================================================== *)
(** ** [parseFrontmatter]: where the block ends *)
(* ================================================================== *)

Module BlockFacts.
Import Regex Patterns StringFacts FrontmatterFacts.

Lemma indexOfFrom_ge (lit : string) : forall s i j,
  JS.indexOfFrom lit s i = Some j -> i <= j.
Proof.
  induction s as [|c s IH]; intros i j H; cbn [JS.indexOfFrom] in H.
  - destruct (String.prefix lit ""); [|discriminate]. injection H as <-. lia.
  - destruct (String.prefix lit (String c s)).
    + injection H as <-. lia.
    + apply IH in H. lia.
Qed.

(** [[\s\S]*?] followed by something that needs the literal [lit] next
    stops at the first place where [lit] occurs, when the rest of the
    pattern matches there. *)
Lemma lazy_any_first (lit : string) (k : cont) :
  (forall p s cs, String.prefix lit s = false -> k p s cs = None) ->
  forall s fuel pos cs i n res,
    JS.indexOfFrom lit s i = Some (i + n) ->
    n <= fuel ->
    k (pos + n) (drop n s) cs = Some res ->
    starLoop (run false anyChar) false k fuel pos s cs = Some res.
Proof.
  intros Hk. induction s as [|c s IH]; intros fuel pos cs i n res Hidx Hfuel Hres;
    cbn [JS.indexOfFrom] in Hidx.
  - destruct (String.prefix lit "") eqn:Ep; [|discriminate].
    injection Hidx as Hn. assert (n = 0) by lia. subst n.
    rewrite Nat.add_0_r in Hres. cbn [drop] in Hres.
    destruct fuel; cbn [starLoop]; now rewrite Hres.
  - destruct (String.prefix lit (String c s)) eqn:Ep.
    + injection Hidx as Hn. assert (n = 0) by lia. subst n.
      rewrite Nat.add_0_r in Hres. cbn [drop] in Hres.
      destruct fuel; cbn [starLoop]; now rewrite Hres.
    + pose proof (indexOfFrom_ge _ _ _ _ Hidx) as Hge.
      destruct n as [|n]; [lia|].
      destruct fuel as [|fuel]; [lia|].
      cbn [starLoop]. rewrite (Hk _ _ _ Ep).
      unfold anyChar at 1. cbn [run]. rewrite anyChar_has.
      replace (S pos =? pos)%nat with false
        by (symmetry; apply Nat.eqb_neq; lia).
      apply (IH fuel (S pos) cs (S i) n res).
      * rewrite Hidx. f_equal. lia.
      * lia.
      * cbn [drop] in Hres. rewrite <- Hres. f_equal. lia.
Qed.

(** The pattern matches an input that opens with the delimiter line; the
    first group is the text up to the first closing delimiter and the
    second group everything after it. *)
Lemma frontmatter_groups (fmStr body : string) :
  JS.indexOf (fmStr ++ closing ++ body) closing = Some (String.length fmStr) ->
  exists m,
    matchFirst false frontmatterRegex (opening ++ fmStr ++ closing ++ body) = Some m
    /\ capture 1 (m_caps m) = Some fmStr
    /\ capture 2 (m_caps m) = Some body.
Proof.
  intros Hidx. unfold frontmatterRegex, seqs. cbn [fold_right].
  rewrite matchFirst_Bol. unfold matchAt.
  cbn [run Nat.eqb]. rewrite run_Lit, prefix_app, drop_app. cbn [run].
  rewrite (lazy_any_first closing) with (i := 0) (n := String.length fmStr)
    (res := (0 + String.length opening + String.length fmStr
             + String.length closing + String.length body,
             [(2, body); (1, fmStr)])).
  - eexists. split; [reflexivity|]. cbn [m_caps capture Nat.eqb]. split; reflexivity.
  - intros p s cs Hp. rewrite run_Lit. now rewrite Hp.
  - exact Hidx.
  - rewrite length_app. lia.
  - rewrite drop_app, run_Lit, prefix_app, drop_app. cbn [run].
    rewrite greedy_any_to_end; [|intros; reflexivity|lia].
    unfold final. do 3 f_equal.
    + f_equal.
      replace (0 + String.length opening + String.length fmStr
               + String.length closing + String.length body
               - (0 + String.length opening + String.length fmStr
                  + String.length closing))
        with (String.length body) by lia.
      now rewrite substring_all.
    + do 2 f_equal.
      replace (0 + String.length opening + String.length fmStr
               - (0 + String.length opening))
        with (String.length fmStr) by lia.
      now rewrite substring_app_l.
Qed.

End BlockFacts.

(** X1.  An input that does not begin with the delimiter line [---] is
    returned whole as the content, with an empty front matter. *)
Theorem parseFrontmatter_without_opening (markdown : string) :
  JS.startsWith markdown Patterns.opening = false ->
  parseFrontmatter markdown = (emptyFrontmatter, markdown).
Proof.
  intros Hp. unfold parseFrontmatter, Patterns.frontmatterRegex, Patterns.seqs.
  cbn [fold_right]. rewrite FrontmatterFacts.matchFirst_Bol.
  unfold Regex.matchAt. cbn [Regex.run Nat.eqb].
  rewrite FrontmatterFacts.run_Lit. unfold JS.startsWith in Hp.
  now rewrite Hp.
Qed.

Lemma parseFrontmatter_without_opening_witness :
  parseFrontmatter "Just plain content without frontmatter."
  = (emptyFrontmatter, "Just plain content without frontmatter.").
Proof.
  apply (parseFrontmatter_without_opening "Just plain content without frontmatter.").
  reflexivity.
Defined.

(** X2.  When the input opens with the delimiter line, the front matter
    is the non-empty text up to the first closing delimiter line: its
    lines are parsed one by one, and the content is what follows that
    delimiter, trimmed.  A later [---] line belongs to the content. *)
Theorem parseFrontmatter_first_closing_delimiter (fmStr body : string) :
  fmStr <> "" ->
  JS.indexOf (fmStr ++ Patterns.closing ++ body) Patterns.closing
  = Some (String.length fmStr) ->
  parseFrontmatter (Patterns.opening ++ fmStr ++ Patterns.closing ++ body)
  = (fold_left parseLine (JS.split JS.LF fmStr) emptyFrontmatter, JS.trim body).
Proof.
  intros Hne Hidx.
  destruct (BlockFacts.frontmatter_groups fmStr body Hidx) as (m & Hm & H1 & H2).
  unfold parseFrontmatter. rewrite Hm, H1, H2.
  apply StringFacts.truthy_iff in Hne. now rewrite Hne.
Qed.

Lemma parseFrontmatter_first_closing_delimiter_witness :
  parseFrontmatter
    (Scenario.lines ["---"; "title: A"; "---"; "intro"; "---"; "rest "])
  = (mkFrontmatter None (Some (VStr "A")) None None None None,
     Scenario.lines ["intro"; "---"; "rest"]).
Proof.
  apply (parseFrontmatter_first_closing_delimiter "title: A"
           (Scenario.lines ["intro"; "---"; "rest "])).
  - discriminate.
  - reflexivity.
Defined.

(* ================================================================== *)
(** ** The quote-stripping [replace] of [parseFrontmatter] *)
(* ================================================================== *)

Module QuoteFacts.
Import Regex Patterns StringFacts Reference.

Lemma quote_class (c : ascii) :
  classHas false false [CChar DQ; CChar SQ] c = isQuote c.
Proof. unfold classHas, isQuote. simpl. now rewrite Bool.orb_false_r. Qed.

Lemma matchAt_head (c : ascii) (s : string) :
  isQuote c = true ->
  matchAt false quoteRegex 0 (String c s) = Some (mkMatch 0 1 (String c "") []).
Proof.
  intros Hq. unfold matchAt, quoteRegex. cbn [run Nat.eqb].
  rewrite quote_class, Hq. unfold final. now destruct s.
Qed.

Lemma run_Alt ci r1 r2 pos s cs (k : cont) :
  run ci (Alt r1 r2) pos s cs k
  = match run ci r1 pos s cs k with
    | Some res => Some res
    | None => run ci r2 pos s cs k
    end.
Proof. reflexivity. Qed.

Lemma lastQuote_cons (c : ascii) (s : string) :
  s <> "" -> lastQuote (String c s) = lastQuote s.
Proof. destruct s; [congruence | reflexivity]. Qed.

Lemma no_fixpoint (s : string) : forall c, s <> String c s.
Proof.
  induction s as [|d s IH]; intros c H; [discriminate|].
  injection H as _ H. now apply (IH d).
Qed.

(** Away from the start of the input, or when the input does not start
    with a quote, the only possible match is a quote in last position. *)
Lemma search_tail : forall s pos,
  pos <> 0 \/ dropLeadingQuote s = s ->
  search false quoteRegex pos s
  = match lastQuote s with
    | Some c => Some (mkMatch (pos + String.length s - 1) (pos + String.length s)
                        (String c "") [])
    | None => None
    end.
Proof.
  induction s as [|c s IH]; intros pos Hpos.
  - cbn [search lastQuote]. unfold matchAt, quoteRegex. cbn [run].
    now destruct (pos =? 0)%nat.
  - assert (HA : run false (Seq Bol (Class false [CChar DQ; CChar SQ]))
                   pos (String c s) [] final = None).
    { cbn [run]. destruct (pos =? 0)%nat eqn:E; [|reflexivity].
      apply Nat.eqb_eq in E. rewrite quote_class.
      destruct (isQuote c) eqn:Eq; [|reflexivity].
      destruct Hpos as [Hpos|Hpos]; [contradiction|].
      cbn [dropLeadingQuote] in Hpos. rewrite Eq in Hpos.
      now apply no_fixpoint in Hpos. }
    cbn [search]. unfold matchAt. unfold quoteRegex at 1.
    rewrite run_Alt, HA.
    destruct (string_dec s "") as [->|Hne].
    + cbn [run lastQuote String.length search]. rewrite quote_class.
      destruct (isQuote c).
      * unfold final. do 2 f_equal; [lia|lia|].
        replace (S pos - pos) with 1 by lia. reflexivity.
      * unfold matchAt, quoteRegex. cbn [run]. now destruct (S pos =? 0)%nat.
    + assert (HB : run false (Seq (Class false [CChar DQ; CChar SQ]) Eol)
                     pos (String c s) [] final = None).
      { cbn [run]. destruct (classHas _ _ _ c); [|reflexivity].
        destruct s; [contradiction|reflexivity]. }
      rewrite HB, IH by (left; lia).
      rewrite (lastQuote_cons c s Hne). cbn [String.length].
      destruct (lastQuote s); [|reflexivity].
      do 2 f_equal; lia.
Qed.

Lemma dropTrailingQuote_cons (c : ascii) (s : string) :
  s <> "" -> dropTrailingQuote (String c s) = String c (dropTrailingQuote s).
Proof. destruct s; [congruence | reflexivity]. Qed.

Lemma lastQuote_split : forall s c,
  lastQuote s = Some c ->
  s = dropTrailingQuote s ++ String c ""
  /\ String.length s = S (String.length (dropTrailingQuote s)).
Proof.
  induction s as [|d s IH]; intros c H; [discriminate|].
  destruct (string_dec s "") as [->|Hne].
  - simpl in *. destruct (isQuote d); [|discriminate].
    injection H as <-. auto.
  - rewrite (lastQuote_cons d s Hne) in H. destruct (IH c H) as [Hs Hl].
    rewrite (dropTrailingQuote_cons d s Hne). split.
    + cbn [append]. now rewrite <- Hs.
    + cbn [String.length]. now rewrite Hl.
Qed.

Lemma lastQuote_none : forall s, lastQuote s = None -> dropTrailingQuote s = s.
Proof.
  induction s as [|d s IH]; intros H; [reflexivity|].
  destruct (string_dec s "") as [->|Hne].
  - simpl in *. now destruct (isQuote d).
  - rewrite (lastQuote_cons d s Hne) in H.
    rewrite (dropTrailingQuote_cons d s Hne). now rewrite (IH H).
Qed.

Lemma deleteLoop_empty fuel pos : deleteLoop fuel false quoteRegex pos "" = "".
Proof.
  destruct fuel; [reflexivity|]. cbn [deleteLoop search].
  unfold matchAt, quoteRegex. cbn [run]. now destruct (pos =? 0)%nat.
Qed.

Lemma deleteLoop_tail (s : string) (pos fuel : nat) :
  pos <> 0 \/ dropLeadingQuote s = s ->
  deleteLoop (S fuel) false quoteRegex pos s = dropTrailingQuote s.
Proof.
  intros Hpos. cbn [deleteLoop]. rewrite (search_tail s pos Hpos).
  destruct (lastQuote s) as [c|] eqn:El.
  - destruct (lastQuote_split s c El) as [Hs Hl]. cbn [m_index m_end].
    set (d := dropTrailingQuote s) in *. clearbody d. clear El. subst s.
    replace (pos + String.length (d ++ String c "")
             =? pos + String.length (d ++ String c "") - 1)%nat with false
      by (symmetry; apply Nat.eqb_neq; lia).
    replace (pos + String.length (d ++ String c "") - 1 - pos)
      with (String.length d) by lia.
    replace (pos + String.length (d ++ String c "") - pos)
      with (String.length (d ++ String c "")) by lia.
    rewrite substring_app_l.
    replace (drop (String.length (d ++ String c "")) (d ++ String c "")) with ""
      by (rewrite <- (app_empty_r (d ++ String c "")) at 2;
          now rewrite drop_app).
    rewrite deleteLoop_empty. apply app_empty_r.
  - symmetry. now apply lastQuote_none.
Qed.

End QuoteFacts.

(** X3.  Stripping quotes removes one quote character, single or double,
    at the very start of the value and one at the very end of what is
    left, and nothing else: quotes inside the value stay, and the two
    removed quotes need not be of the same kind. *)
Theorem stripQuotes_removes_outer_quotes (s : string) :
  stripQuotes s = Reference.dropTrailingQuote (Reference.dropLeadingQuote s).
Proof.
  unfold stripQuotes, Regex.deleteAll.
  destruct s as [|c s].
  - reflexivity.
  - cbn [Reference.dropLeadingQuote]. destruct (Reference.isQuote c) eqn:Eq.
    + cbn [Regex.deleteLoop Regex.search].
      rewrite (QuoteFacts.matchAt_head c s Eq).
      cbn [Regex.m_end Regex.m_index Nat.eqb Nat.sub Regex.drop substring append].
      cbn [String.length].
      apply QuoteFacts.deleteLoop_tail. now left.
    + apply QuoteFacts.deleteLoop_tail. right. simpl. now rewrite Eq.
Qed.

(* ================================================================== *)
(** ** [getBasePath] *)
(* ================================================================== *)

Module PathFacts.
Import StringFacts.

Lemma slice_prefix (u v : string) :
  JS.slice (u ++ v) 0 (Z.of_nat (String.length u)) = u.
Proof.
  unfold JS.slice, JS.relIndex. rewrite length_app.
  replace (0 <? 0)%Z with false by reflexivity.
  replace (Z.of_nat (String.length u) <? 0)%Z with false
    by (symmetry; apply Z.ltb_ge; lia).
  rewrite Z.min_l by lia.
  rewrite Z.min_l by lia.
  rewrite Z.sub_0_r, Z.max_l by lia.
  rewrite Nat2Z.id. apply substring_app_l.
Qed.

Lemma indexOf_slash_found (name : string) : forall dir i,
  exists j, JS.indexOfFrom "/" (dir ++ String "/" name) i = Some j.
Proof.
  induction dir as [|c dir IH]; intros i.
  - exists i. cbn [append JS.indexOfFrom String.prefix].
    destruct (ascii_dec "/" "/") as [_|n]; [|now elim n]. now destruct name.
  - cbn [append JS.indexOfFrom].
    destruct (String.prefix "/" (String c (dir ++ String "/" name))); eauto.
Qed.

Lemma lastIndexOf_none : forall s i j,
  JS.indexOfFrom "/" s i = None -> JS.lastIndexOfFrom "/" s j = None.
Proof.
  induction s as [|c s IH]; intros i j H;
    cbn [JS.indexOfFrom JS.lastIndexOfFrom] in *.
  - now destruct (String.prefix "/" "").
  - destruct (String.prefix "/" (String c s)); [discriminate|].
    now rewrite (IH _ (S j) H).
Qed.

(** The last slash of [dir/name] is the one written between them when
    [name] holds none. *)
Lemma lastIndexOf_slash (name : string) :
  JS.indexOf name "/" = None ->
  forall dir i,
    JS.lastIndexOfFrom "/" (dir ++ String "/" name) i
    = Some (i + String.length dir).
Proof.
  intros Hname. induction dir as [|c dir IH]; intros i.
  - cbn [append JS.lastIndexOfFrom String.length].
    rewrite (lastIndexOf_none name 0 (S i) Hname).
    cbn [String.prefix]. destruct (ascii_dec "/" "/") as [_|n]; [|now elim n].
    rewrite Nat.add_0_r. now destruct name.
  - cbn [append JS.lastIndexOfFrom String.length]. rewrite IH.
    f_equal. lia.
Qed.

End PathFacts.

(** X4.  For a file name without a slash the base path is the current
    directory [.]; for [dir/name], where [name] holds no slash, it is
    [dir] (the empty string for a file in the root directory), so that a
    relative image path is looked up beside the markdown file. *)
Theorem getBasePath_directory_of_file (dir name relative : string) :
  JS.indexOf name "/" = None ->
  JS.startsWith relative "/" = false ->
  getBasePath name = "."
  /\ getBasePath (dir ++ "/" ++ name) = dir
  /\ resolvePath relative (getBasePath (dir ++ "/" ++ name))
     = dir ++ "/" ++ relative.
Proof.
  intros Hname Hrel.
  assert (Hdir : getBasePath (dir ++ "/" ++ name) = dir).
  { unfold getBasePath, JS.includes, JS.indexOf, JS.lastIndexOf.
    cbn [append].
    destruct (PathFacts.indexOf_slash_found name dir 0) as [j ->].
    rewrite (PathFacts.lastIndexOf_slash name Hname dir 0).
    apply PathFacts.slice_prefix. }
  split; [|split; [exact Hdir|]].
  - unfold getBasePath, JS.includes. now rewrite Hname.
  - unfold resolvePath. now rewrite Hrel, Hdir.
Qed.

Lemma getBasePath_directory_of_file_witness :
  getBasePath "post.md" = "."
  /\ getBasePath "content/blog/post.md" = "content/blog"
  /\ resolvePath "./x.png" (getBasePath "content/blog/post.md")
     = "content/blog/./x.png".
Proof.
  apply (getBasePath_directory_of_file "content/blog" "post.md" "./x.png");
    reflexivity.
Defined.

(* ================================================================== *)
(** ** Where the references of [parseImageReferences] lie *)
(* ================================================================== *)

Module SpanFacts.
Import Regex Patterns StringFacts RegexFacts ImagePatternFacts Reference.

Lemma span_group ci n neg items tail :
  groupFree tail = true ->
  forall pos s e cs,
    run ci (Seq (Group n (Plus true (Class neg items))) tail) pos s [] final
    = Some (e, cs) ->
    Span n pos s e cs.
Proof.
  intros Hg pos s e cs H. simpl in H.
  destruct s as [|d s0]; [discriminate|].
  destruct (classHas ci neg items d); [|discriminate].
  apply (starLoop_transparent (run ci (Class neg items)) true) in H;
    [|apply (run_groupFree ci (Class neg items) eq_refl)].
  destruct H as (u & s' & -> & H).
  apply (run_groupFree ci tail Hg) in H.
  destruct H as (u' & s'' & -> & H).
  unfold final in H.
  replace (S pos + String.length u - pos) with (S (String.length u)) in H by lia.
  cbn [substring] in H. rewrite substring_app_l in H.
  injection H as He Hcs. subst e cs.
  exists "", (String d u), u', s''. cbn [append String.length].
  repeat split; [lia | discriminate].
Qed.

Lemma span_seq ci n r1 r2 :
  groupFree r1 = true ->
  (forall pos s e cs, run ci r2 pos s [] final = Some (e, cs) -> Span n pos s e cs) ->
  forall pos s e cs,
    run ci (Seq r1 r2) pos s [] final = Some (e, cs) -> Span n pos s e cs.
Proof.
  intros Hg Hr2 pos s e cs H.
  apply run_seq_head in H; [|exact Hg].
  destruct H as (u & s' & -> & H).
  apply Hr2 in H. destruct H as (pre & p & post & rest & -> & -> & Hp & ->).
  exists (u ++ pre), p, post, rest. rewrite length_app, app_assoc.
  repeat split; [lia | exact Hp].
Qed.

Lemma markdown_span pos s e cs :
  run false markdownImageRegex pos s [] final = Some (e, cs) -> Span 1 pos s e cs.
Proof.
  unfold markdownImageRegex, seqs. cbn [fold_right].
  do 5 (apply span_seq; [reflexivity|]).
  apply span_group. reflexivity.
Qed.

Lemma html_span pos s e cs :
  run true htmlImageRegex pos s [] final = Some (e, cs) -> Span 1 pos s e cs.
Proof.
  unfold htmlImageRegex, seqs. cbn [fold_right].
  do 4 (apply span_seq; [reflexivity|]).
  apply span_group. reflexivity.
Qed.

(** The first group of a match lies inside the matched text. *)
Lemma matchAt_span ci r pos s m :
  (forall pos s e cs, run ci r pos s [] final = Some (e, cs) -> Span 1 pos s e cs) ->
  matchAt ci r pos s = Some m ->
  forall p, capture 1 (m_caps m) = Some p ->
            p <> "" /\ exists pre post, m_text m = pre ++ p ++ post.
Proof.
  intros Hspan H p Hp. unfold matchAt in H.
  destruct (run ci r pos s [] final) as [[e cs]|] eqn:E; [|discriminate].
  injection H as <-. cbn [m_caps m_text] in *.
  apply Hspan in E. destruct E as (pre & q & post & rest & -> & -> & Hq & ->).
  cbn [capture Nat.eqb] in Hp. injection Hp as <-.
  split; [exact Hq|]. exists pre, post.
  replace (pos + String.length pre + String.length q + String.length post - pos)
    with (String.length (pre ++ q ++ post))
    by (rewrite !length_app; lia).
  replace (pre ++ q ++ post ++ rest) with ((pre ++ q ++ post) ++ rest)
    by (now rewrite !app_assoc).
  apply substring_app_l.
Qed.

(** Every match of the scanning loop is a match of the pattern and its
    text occurs in the input. *)
Lemma execLoop_inside ci r m : forall fuel pos s,
  In m (execLoop fuel ci r pos s) ->
  (exists pos' s', matchAt ci r pos' s' = Some m)
  /\ exists a b, s = a ++ m_text m ++ b.
Proof.
  induction fuel as [|fuel IH]; intros pos s H; simpl in H; [contradiction|].
  destruct (search ci r pos s) as [m0|] eqn:E; [|contradiction].
  destruct (search_inv _ _ _ _ _ E) as (v & u & s' & Hs & Hi & He & Ht & Hm).
  assert (H0 : (exists pos' s', matchAt ci r pos' s' = Some m0)
               /\ exists a b, s = a ++ m_text m0 ++ b).
  { split; [now exists (m_index m0), (u ++ s')|].
    exists v, s'. now rewrite Ht. }
  destruct (m_end m0 <=? m_index m0)%nat.
  - destruct H as [<-|[]]. exact H0.
  - destruct H as [<-|H]; [exact H0|].
    apply IH in H. destruct H as [Hmatch (a & b & Hab)]. split; [exact Hmatch|].
    subst s.
    replace (m_end m0 - pos) with (String.length (v ++ u)) in Hab
      by (rewrite length_app; lia).
    rewrite <- app_assoc, drop_app in Hab.
    exists (v ++ u ++ a), b. rewrite Hab. now rewrite !app_assoc.
Qed.

End SpanFacts.

(** X5.  Every reference returned by the scan has a non-empty local
    path; its [original] text occurs in the content and its [path] occurs
    inside its [original] text, so the two replacements made for it by
    [processImages] always find something to replace. *)
Theorem parseImageReferences_spans (content : string) (ref : ImageReference) :
  In ref (parseImageReferences content) ->
  path ref <> ""
  /\ isLocalPath (path ref) = true
  /\ (exists before after, content = before ++ original ref ++ after)
  /\ (exists before after, original ref = before ++ path ref ++ after).
Proof.
  unfold parseImageReferences. rewrite !ScanFacts.In_pushLocal. simpl.
  intros [[[]|(m & Hin & Hc & Ho & Hn & Hl)]|(m & Hin & Hc & Ho & Hn & Hl)];
    (split; [exact Hn|]; split; [exact Hl|]);
    apply SpanFacts.execLoop_inside in Hin;
    destruct Hin as [(pos & s & Hm) Hinside]; rewrite Ho;
    (split; [exact Hinside|]).
  - now apply (SpanFacts.matchAt_span false _ _ _ _ SpanFacts.markdown_span Hm).
  - now apply (SpanFacts.matchAt_span true _ _ _ _ SpanFacts.html_span Hm).
Qed.

Lemma parseImageReferences_spans_witness :
  exists before after,
    "Some text ![Alt text](./image.png) more text"
    = before ++ "![Alt text](./image.png)" ++ after.
Proof.
  apply (parseImageReferences_spans
           "Some text ![Alt text](./image.png) more text"
           (mkRef "![Alt text](./image.png)" "./image.png")).
  vm_compute. now left.
Defined.

(* ================================================================== *)
(** ** More on [processImages] and [validateImageFile] *)
(* ================================================================== *)

(** X6.  The paths to upload are the paths of the references together
    with the featured image when that is a non-empty local path, and no
    path is listed twice, however often it is referenced. *)
Theorem collectPaths_unique_local_paths
        (refs : list ImageReference) (featuredImage : option string) :
  NoDup (mapKeys (collectPaths refs featuredImage))
  /\ forall k,
       In k (mapKeys (collectPaths refs featuredImage))
       <-> In k (map path refs)
           \/ (featuredImage = Some k /\ k <> "" /\ isLocalPath k = true).
Proof.
  split; [apply PathMapFacts.NoDup_collectPaths|].
  intros k. rewrite PathMapFacts.In_collectPaths.
  assert (Hloc : featuredImage = Some k ->
                 (featuredIsLocal featuredImage = true
                  <-> k <> "" /\ isLocalPath k = true)).
  { intros ->. unfold featuredIsLocal.
    rewrite Bool.andb_true_iff, StringFacts.truthy_iff. tauto. }
  split; intros [H|H]; auto; right; destruct H as [Hf H]; split; auto;
    now apply (Hloc Hf).
Qed.

(** X7.  When the content holds no local image reference and the featured
    image is absent, empty or remote, [processImages] returns the content
    and the featured image as they are, without any interaction. *)
Theorem processImages_nothing_local
        (w : World) (content : string) (featuredImage : option string)
        (basePath api : string) (t : list Event) :
  parseImageReferences content = [] ->
  featuredIsLocal featuredImage = false ->
  processImages w content featuredImage basePath api t
  = (t, inr (content, featuredImage)).
Proof.
  intros Hrefs Hf. unfold processImages, collectPaths. rewrite Hrefs, Hf.
  simpl. now destruct featuredImage.
Qed.

Lemma processImages_nothing_local_witness :
  processImages (Scenario.world [] None)
    "![Remote](https://example.com/image.png)" (Some "https://example.com/f.png")
    "posts" "http://localhost:3000" []
  = ([], inr ("![Remote](https://example.com/image.png)",
              Some "https://example.com/f.png")).
Proof.
  apply (processImages_nothing_local (Scenario.world [] None)
           "![Remote](https://example.com/image.png)"
           (Some "https://example.com/f.png") "posts" "http://localhost:3000" []);
    vm_compute; reflexivity.
Defined.

(** X8.  A call of [processImages] that returns has made exactly one
    upload for each distinct path to upload, in the order of discovery,
    all of them successful, and nothing else; and a local featured image
    gets the URL of the upload made for its path. *)
Theorem processImages_one_upload_per_path
        (w : World) (content : string) (featuredImage : option string)
        (basePath api : string) (t t' : list Event)
        (processed : string) (featuredImageUrl : option string) :
  processImages w content featuredImage basePath api t
  = (t', inr (processed, featuredImageUrl)) ->
  let paths := mapKeys (collectPaths (parseImageReferences content) featuredImage) in
  NoDup paths
  /\ exists responses,
       List.length responses = List.length paths
       /\ t' = (t ++ uploadsOf basePath paths responses)%list
       /\ (featuredIsLocal featuredImage = true ->
           exists f r, featuredImage = Some f
                       /\ In (f, r) (combine paths responses)
                       /\ featuredImageUrl = Some (url r)).
Proof. apply DedupFacts.processImages_uploads_once. Qed.

Lemma processImages_one_upload_per_path_witness :
  exists responses,
    List.length responses = 1
    /\ [EvUpload "posts/./x.png"
          (Uploaded (mkUpload "https://cdn/x.png" "x.png" 10 "image/png"))]
       = uploadsOf "posts" ["./x.png"] responses.
Proof.
  destruct (processImages_one_upload_per_path
              (Scenario.world [Scenario.png "posts/./x.png"] None)
              "![a](./x.png) and ![b](./x.png)" (Some "./x.png") "posts"
              "http://localhost:3000" []
              [EvUpload "posts/./x.png"
                 (Uploaded (mkUpload "https://cdn/x.png" "x.png" 10 "image/png"))]
              "![a](https://cdn/x.png) and ![b](https://cdn/x.png)"
              (Some "https://cdn/x.png"))
    as (_ & responses & Hlen & Ht & _).
  - vm_compute. reflexivity.
  - exists responses. split; [exact Hlen | exact Ht].
Defined.

(** X9.  [validateImageFile] accepts a path exactly when the file at the
    resolved path exists, is not larger than the maximum and has an
    allowed type, and it then returns that file and the resolved path.
    The checks are made in this order: a missing file is reported as not
    found, and a file that is too large is reported as such whatever its
    type. *)
Theorem validateImageFile_accepts_exactly
        (w : World) (filePath basePath : string) :
  let fullPath := resolvePath filePath basePath in
  (forall f full,
      validateImageFile w filePath basePath = inr (f, full)
      <-> file w fullPath = Some f
          /\ (f_size f <= maxImageSize (config w))%Z
          /\ In (f_type f) (allowedImageTypes (config w))
          /\ full = fullPath)
  /\ (file w fullPath = None ->
      validateImageFile w filePath basePath
      = inl (ImageValidationError (ImageNotFound fullPath)))
  /\ (forall f,
         file w fullPath = Some f ->
         (f_size f > maxImageSize (config w))%Z ->
         validateImageFile w filePath basePath
         = inl (ImageValidationError (ImageTooLarge fullPath (f_size f))))
  /\ (forall f,
         file w fullPath = Some f ->
         (f_size f <= maxImageSize (config w))%Z ->
         ~ In (f_type f) (allowedImageTypes (config w)) ->
         validateImageFile w filePath basePath
         = inl (ImageValidationError (ImageBadType fullPath (f_type f)))).
Proof.
  intros fullPath. unfold validateImageFile. fold fullPath.
  destruct (file w fullPath) as [f0|].
  - destruct (f_size f0 >? maxImageSize (config w))%Z eqn:Es.
    + apply Z.gtb_gt in Es. repeat split; try discriminate.
      * intros (H & Hs & _). injection H as <-. lia.
      * intros f H _. now injection H as <-.
      * intros f H Hs. injection H as <-. lia.
    + assert (Hs : (f_size f0 <= maxImageSize (config w))%Z).
      { destruct (Z.gtb_spec (f_size f0) (maxImageSize (config w)));
          [discriminate | lia]. }
      destruct (existsb (String.eqb (f_type f0)) (allowedImageTypes (config w)))
        eqn:Et; simpl.
      * apply UploadFacts.existsb_eqb_In in Et. repeat split; try discriminate.
        -- now injection H as <- _.
        -- injection H as <- _. exact Hs.
        -- injection H as <- _. exact Et.
        -- now injection H as _ <-.
        -- intros (H & _ & _ & ->). now injection H as <-.
        -- intros f H Hgt. injection H as <-. lia.
        -- intros f H _ Hn. injection H as <-. contradiction.
      * assert (Hn : ~ In (f_type f0) (allowedImageTypes (config w))).
        { intros Hin. apply UploadFacts.existsb_eqb_In in Hin. congruence. }
        repeat split; try discriminate.
        -- intros (H & _ & Hin & _). injection H as <-. contradiction.
        -- intros f H Hgt. injection H as <-. lia.
        -- intros f H _ _. now injection H as <-.
  - repeat split; try discriminate.
    intros (H & _). discriminate.
Qed.

(* ================================================================== *)
(** ** More on [parseSecretKey] and [getSecretKey] *)
(* ================================================================== *)

Module TrimFacts.

Lemma trimEnd_cons (c : ascii) (s : string) :
  JS.trimEnd (String c s)
  = match JS.trimEnd s with
    | "" => if JS.isWhiteSpace c then "" else String c ""
    | r => String c r
    end.
Proof. reflexivity. Qed.

Lemma trimEnd_idem : forall s, JS.trimEnd (JS.trimEnd s) = JS.trimEnd s.
Proof.
  induction s as [|c s IH]; [reflexivity|].
  rewrite trimEnd_cons. destruct (JS.trimEnd s) as [|d r] eqn:E.
  - destruct (JS.isWhiteSpace c) eqn:Ew; [reflexivity|].
    rewrite trimEnd_cons. cbn [JS.trimEnd]. now rewrite Ew.
  - rewrite trimEnd_cons, IH. reflexivity.
Qed.

Lemma trimStart_head (s : string) :
  JS.trimStart s = ""
  \/ exists c r, JS.trimStart s = String c r /\ JS.isWhiteSpace c = false.
Proof.
  induction s as [|c s IH]; [now left|].
  cbn [JS.trimStart]. destruct (JS.isWhiteSpace c) eqn:Ew; [exact IH|].
  right. now exists c, s.
Qed.

Lemma trimEnd_head (c : ascii) (s : string) :
  JS.isWhiteSpace c = false -> exists r, JS.trimEnd (String c s) = String c r.
Proof.
  intros Hw. rewrite trimEnd_cons. destruct (JS.trimEnd s).
  - rewrite Hw. now exists "".
  - eexists. reflexivity.
Qed.

Lemma trim_idem (s : string) : JS.trim (JS.trim s) = JS.trim s.
Proof.
  unfold JS.trim. destruct (trimStart_head s) as [->|(c & r & -> & Hw)].
  - reflexivity.
  - destruct (trimEnd_head c r Hw) as [r' Hr]. rewrite Hr.
    cbn [JS.trimStart]. rewrite Hw, <- Hr. apply trimEnd_idem.
Qed.

End TrimFacts.

(** X10.  The pattern of [parseSecretKey] accepts exactly the strings of
    64 characters that are all hexadecimal digits, in either case. *)
Theorem hexKeyRegex_accepts_exactly (s : string) :
  test false Patterns.hexKeyRegex s
  = (String.length s =? 64)%nat && allChars isHexDigit s.
Proof. apply SecretKeyFacts.hexKey_test. Qed.

(** X11.  For an input that, once trimmed, does not start with [nsec1],
    whatever the codec: 64 hexadecimal digits give the 32 bytes they
    denote, and anything else is refused with [InvalidSecretKeyError] and
    its default message. *)
Theorem parseSecretKey_hex_or_invalid
        (decode : string -> option DecodedResult) (input : string) :
  JS.startsWith (JS.trim input) "nsec1" = false ->
  if (String.length (JS.trim input) =? 64)%nat
     && allChars isHexDigit (JS.trim input)
  then exists bytes,
         parseSecretKey decode input = inr bytes
         /\ hexToBytes (JS.trim input) = Some bytes
         /\ List.length bytes = 32
  else parseSecretKey decode input
       = inl (InvalidSecretKeyError defaultInvalidSecretKey).
Proof.
  intros Hp.
  destruct ((String.length (JS.trim input) =? 64)%nat
            && allChars isHexDigit (JS.trim input)) eqn:E.
  - apply Bool.andb_true_iff in E. destruct E as [Hlen Hall].
    apply Nat.eqb_eq in Hlen.
    destruct (SecretKeyFacts.hexToBytes_length 32 _ Hlen Hall) as (bytes & Hb & Hn).
    exists bytes. split; [|now split].
    unfold parseSecretKey.
    now rewrite Hp, SecretKeyFacts.hexKey_test, Hlen, Hall, Hb.
  - now apply SecretKeyFacts.parseSecretKey_not_hex.
Qed.

Lemma parseSecretKey_hex_or_invalid_witness :
  (exists bytes,
      parseSecretKey Nip19.decode ("  " ++ Scenario.validHexKey ++ "  ") = inr bytes
      /\ hexToBytes (JS.trim ("  " ++ Scenario.validHexKey ++ "  ")) = Some bytes
      /\ List.length bytes = 32)
  /\ parseSecretKey Nip19.decode "0123456789abcdef"
     = inl (InvalidSecretKeyError defaultInvalidSecretKey).
Proof.
  split.
  - apply (parseSecretKey_hex_or_invalid Nip19.decode
             ("  " ++ Scenario.validHexKey ++ "  ")).
    reflexivity.
  - apply (parseSecretKey_hex_or_invalid Nip19.decode "0123456789abcdef").
    reflexivity.
Defined.

(** X12.  White space around the key is ignored, for either encoding and
    whatever the codec. *)
Theorem parseSecretKey_ignores_surrounding_space
        (decode : string -> option DecodedResult) (input : string) :
  parseSecretKey decode input = parseSecretKey decode (JS.trim input).
Proof.
  unfold parseSecretKey. now rewrite TrimFacts.trim_idem.
Qed.

(** X13.  [getSecretKey] returns a key only as the result of decrypting
    the trimmed contents of a keyfile that starts with [ncryptsec1] under a
    non-empty password obtained from the prompt, and it returns every such
    key; it then has prompted once and decrypted once. *)
Theorem getSecretKey_returns_exactly
        (w : World) (keyfilePath : string) (t t' : list Event)
        (key : list Byte.byte) :
  getSecretKey w keyfilePath t = (t', inr key)
  <-> exists f password,
        file w keyfilePath = Some f
        /\ JS.startsWith (f_text f) "ncryptsec1" = true
        /\ promptPassword w = Some password
        /\ password <> ""
        /\ nip49_decrypt w (JS.trim (f_text f)) password = Some key
        /\ t' = (t ++ [EvPrompt passwordPrompt;
                       EvDecrypt (JS.trim (f_text f)) password])%list.
Proof.
  unfold getSecretKey, bind, prompt, decrypt, throw, ret. split.
  - destruct (file w keyfilePath) as [f|]; [|discriminate].
    destruct (JS.startsWith (f_text f) "ncryptsec1") eqn:Ep; [|discriminate].
    cbn [negb]. destruct (promptPassword w) as [password|]; [|discriminate].
    destruct (JS.truthy password) eqn:Et; [|discriminate]. cbn [negb].
    destruct (nip49_decrypt w (JS.trim (f_text f)) password) as [k|] eqn:Ed;
      [|discriminate].
    intros H. injection H as <- <-.
    exists f, password. apply StringFacts.truthy_iff in Et.
    repeat split; auto. now rewrite <- app_assoc.
  - intros (f & password & -> & -> & -> & Hne & -> & ->).
    apply StringFacts.truthy_iff in Hne. rewrite Hne. cbn [negb].
    now rewrite <- app_assoc.
Qed.

(* ================================================================== *)
(** ** More on the commands *)
(* ================================================================== *)

Module CommandFacts.

(** What [loadKey] adds to the interactions: no upload, and, when it
    returns, one prompt and one successful decryption. *)
Lemma loadKey_trace (w : World) (keyfilePath : string) (t : list Event) :
  exists evs,
    fst (loadKey w keyfilePath t) = (t ++ evs)%list
    /\ (forall full out, ~ In (EvUpload full out) evs)
    /\ (forall key, snd (loadKey w keyfilePath t) = inr key ->
                    exists n p, evs = [EvPrompt passwordPrompt; EvDecrypt n p]
                                /\ nip49_decrypt w n p = Some key).
Proof.
  unfold loadKey, getSecretKey, bind, prompt, decrypt, throw, ret.
  destruct (file w keyfilePath) as [f|].
  2:{ exists []. simpl. rewrite app_nil_r. repeat split; [tauto|discriminate]. }
  destruct (negb (JS.startsWith (f_text f) "ncryptsec1")).
  { exists []. simpl. rewrite app_nil_r. repeat split; [tauto|discriminate]. }
  destruct (promptPassword w) as [password|].
  2:{ exists [EvPrompt passwordPrompt]. simpl. repeat split; [|discriminate].
      intros full out [H|[]]. discriminate. }
  destruct (negb (JS.truthy password)).
  { exists [EvPrompt passwordPrompt]. simpl. repeat split; [|discriminate].
    intros full out [H|[]]. discriminate. }
  exists [EvPrompt passwordPrompt; EvDecrypt (JS.trim (f_text f)) password].
  destruct (nip49_decrypt w (JS.trim (f_text f)) password) as [key|] eqn:Ed.
  - destruct (getPublicKey w key); simpl; rewrite <- app_assoc;
      (repeat split; [intros full out [H|[H|[]]]; discriminate|]).
    + intros k H. injection H as <-. eauto.
    + discriminate.
  - simpl. rewrite <- app_assoc.
    repeat split; [intros full out [H|[H|[]]]; discriminate | discriminate].
Qed.

Lemma processImages_extends w content featuredImage basePath api t :
  exists evs,
    fst (processImages w content featuredImage basePath api t) = (t ++ evs)%list.
Proof.
  unfold processImages. destruct (List.length _ =? 0)%nat.
  - exists []. simpl. now rewrite app_nil_r.
  - unfold bind.
    destruct (UploadFacts.uploadLoop_total w basePath api
                (mapKeys (collectPaths (parseImageReferences content) featuredImage))
                (collectPaths (parseImageReferences content) featuredImage) t)
      as [evs Hevs].
    destruct (uploadLoop w basePath api _ _ t) as [t1 [e|m]];
      simpl in *; eauto.
Qed.

Lemma callProcessImages_extends w content featuredImage basePath api t :
  exists evs,
    fst (callProcessImages w content featuredImage basePath api t)
    = (t ++ evs)%list.
Proof.
  unfold callProcessImages. destruct featuredImage as [[f|items]|].
  - apply processImages_extends.
  - exists []. simpl. now rewrite app_nil_r.
  - apply processImages_extends.
Qed.

(** The shape shared by the two commands: the key is loaded, then images
    are processed.  An upload among the new interactions comes after the
    prompt and a successful decryption. *)
Lemma key_then_images {A B : Type} (w : World) (keyfilePath : string)
      (images : M A) (finish : A -> M B) (t : list Event) :
  (forall t0, exists evs, fst (images t0) = (t0 ++ evs)%list) ->
  (forall x t0, fst (finish x t0) = t0) ->
  let run := (_ <- loadKey w keyfilePath ;; x <- images ;; finish x) t in
  exists evs,
    fst run = (t ++ evs)%list
    /\ (forall full out,
           In (EvUpload full out) evs ->
           exists n p key rest,
             evs = (EvPrompt passwordPrompt :: EvDecrypt n p :: rest)%list
             /\ nip49_decrypt w n p = Some key).
Proof.
  intros Himages Hfinish run. unfold run, bind.
  destruct (loadKey_trace w keyfilePath t) as (evs1 & Ht1 & Hno & Hkey).
  destruct (loadKey w keyfilePath t) as [t1 [e|key]]; simpl in Ht1, Hkey.
  - exists evs1. simpl. split; [exact Ht1|].
    intros full out Hin. now apply Hno in Hin.
  - destruct (Hkey key eq_refl) as (n & p & -> & Hd).
    destruct (Himages t1) as [evs2 Ht2].
    destruct (images t1) as [t2 [e|x]]; simpl in Ht2; subst t1 t2.
    + exists ([EvPrompt passwordPrompt; EvDecrypt n p] ++ evs2)%list.
      simpl. rewrite <- app_assoc. split; [reflexivity|].
      intros full out _. now exists n, p, key, evs2.
    + exists ([EvPrompt passwordPrompt; EvDecrypt n p] ++ evs2)%list.
      rewrite Hfinish, <- app_assoc. split; [reflexivity|].
      intros full out _. now exists n, p, key, evs2.
Qed.

End CommandFacts.

(** X14.  An update without an input file and without any field option
    is refused with the "No updates provided" error before anything else
    happens: no prompt, no decryption, no upload. *)
Theorem updatePost_nothing_to_update
        (w : World) (slug : string) (options : UpdatePostOptions) (t : list Event) :
  given (o_file options) = false ->
  given (o_newSlug options) = false -> given (o_title options) = false ->
  given (o_content options) = false -> given (o_excerpt options) = false ->
  given (o_featuredImage options) = false -> given (o_author options) = false ->
  given (o_tags options) = false ->
  updatePost w slug options t = (t, inl (PlainError noUpdatesMessage)).
Proof.
  intros Hfile Hslug Htitle Hcontent Hexcerpt Himage Hauthor Htags.
  unfold updatePost, bind, applyOverrides, orKeep.
  rewrite Hfile. simpl.
  rewrite Hslug, Htitle, Hcontent, Hexcerpt, Himage, Hauthor, Htags.
  reflexivity.
Qed.

Lemma updatePost_nothing_to_update_witness :
  updatePost (Scenario.world [Scenario.keyfileOk] (Some "hunter2")) "my-post"
    (mkUpdateOptions Scenario.common None None (Some "") None None None None None) []
  = ([], inl (PlainError noUpdatesMessage)).
Proof.
  apply (updatePost_nothing_to_update
           (Scenario.world [Scenario.keyfileOk] (Some "hunter2")) "my-post"
           (mkUpdateOptions Scenario.common None None (Some "") None None None
              None None) []);
    reflexivity.
Defined.

(** X15.  An update whose input file does not exist fails with
    [FileNotFoundError] for that path before anything else happens,
    whatever other options are given. *)
Theorem updatePost_missing_file
        (w : World) (slug filePath : string) (options : UpdatePostOptions)
        (t : list Event) :
  o_file options = Some filePath -> filePath <> "" ->
  file w filePath = None ->
  updatePost w slug options t = (t, inl (FileNotFoundError filePath)).
Proof.
  intros Hf Hne Hmissing. unfold updatePost, bind, given.
  rewrite Hf. apply StringFacts.truthy_iff in Hne. rewrite Hne, Hmissing.
  reflexivity.
Qed.

Lemma updatePost_missing_file_witness :
  updatePost (Scenario.world [Scenario.keyfileOk] (Some "hunter2")) "my-post"
    Scenario.updateOptions []
  = ([], inl (FileNotFoundError "posts/post.md")).
Proof.
  apply (updatePost_missing_file
           (Scenario.world [Scenario.keyfileOk] (Some "hunter2")) "my-post"
           "posts/post.md" Scenario.updateOptions []);
    [reflexivity | discriminate | reflexivity].
Defined.

(** X16.  When an update reaches the API call, the new slug, title,
    excerpt, author and tags given on the command line are those of the
    payload, whatever the input file says; the tags option is split at
    the commas and each tag is trimmed. *)
Theorem updatePost_field_options_win
        (w : World) (slug : string) (options : UpdatePostOptions)
        (t t' : list Event) (payload : UpdatePayload) :
  updatePost w slug options t = (t', inr payload) ->
  (given (o_newSlug options) = true ->
   u_slug payload = VStrOpt (o_newSlug options))
  /\ (given (o_title options) = true ->
      u_title payload = VStrOpt (o_title options))
  /\ (given (o_excerpt options) = true ->
      u_excerpt payload = VStrOpt (o_excerpt options))
  /\ (given (o_author options) = true ->
      u_author payload = VStrOpt (o_author options))
  /\ (given (o_tags options) = true ->
      u_tags payload = splitTags (o_tags options)).
Proof. apply UpdateFacts.updatePost_options_win. Qed.

Lemma updatePost_field_options_win_witness :
  u_title (mkUpdate None (Some (VStr "B")) (Some "file body") None None None None)
  = VStrOpt (o_title Scenario.updateOptions).
Proof.
  apply (updatePost_field_options_win
           (Scenario.world [Scenario.keyfileOk; Scenario.postFile] (Some "hunter2"))
           "my-post" Scenario.updateOptions []
           [EvPrompt passwordPrompt;
            EvDecrypt (f_text (snd Scenario.keyfileOk)) "hunter2"]
           (mkUpdate None (Some (VStr "B")) (Some "file body") None None None None)).
  - vm_compute. reflexivity.
  - reflexivity.
Defined.

(** X17.  When an update reaches the API call: without an input file the
    content given on the command line is the content of the payload; and
    a featured image given on the command line as an [http://] or
    [https://] URL is the featured image of the payload, whatever the
    input file says. *)
Theorem updatePost_content_and_remote_image
        (w : World) (slug : string) (options : UpdatePostOptions)
        (t t' : list Event) (payload : UpdatePayload) :
  updatePost w slug options t = (t', inr payload) ->
  (o_file options = None -> given (o_content options) = true ->
   u_content payload = o_content options)
  /\ (forall f, o_featuredImage options = Some f -> f <> "" ->
                isLocalPath f = false ->
                u_featured_image payload = Some f).
Proof. apply UpdateFacts.updatePost_content_and_image. Qed.

Lemma updatePost_content_and_remote_image_witness :
  u_content (mkUpdate None None (Some "cli body") None
               (Some "https://cdn/cover.png") None None)
  = Some "cli body"
  /\ u_featured_image (mkUpdate None None (Some "cli body") None
                         (Some "https://cdn/cover.png") None None)
     = Some "https://cdn/cover.png".
Proof.
  destruct (updatePost_content_and_remote_image
              (Scenario.world [Scenario.keyfileOk] (Some "hunter2")) "my-post"
              (mkUpdateOptions Scenario.common None None (Some "cli body") None
                 (Some "https://cdn/cover.png") None None None) []
              [EvPrompt passwordPrompt;
               EvDecrypt (f_text (snd Scenario.keyfileOk)) "hunter2"]
              (mkUpdate None None (Some "cli body") None
                 (Some "https://cdn/cover.png") None None))
    as [Hcontent Himage].
  - vm_compute. reflexivity.
  - split.
    + apply Hcontent; reflexivity.
    + apply (Himage "https://cdn/cover.png"); [reflexivity|discriminate|reflexivity].
Defined.

(** X18.  A post that reaches the API call comes from a file that exists;
    its slug, title, author, excerpt and tags are those of the front
    matter of that file, and each of slug, title and author is present
    and is not the empty string.  It can be a list, even the empty one:
    nothing more is checked. *)
Theorem createPost_payload_from_front_matter
        (w : World) (filePath : string) (options : CommonOptions)
        (t t' : list Event) (payload : PostPayload) :
  createPost w filePath options t = (t', inr payload) ->
  exists f,
    file w filePath = Some f
    /\ let frontmatter := fst (parseFrontmatter (f_text f)) in
       p_slug payload = fm_slug frontmatter
       /\ p_title payload = fm_title frontmatter
       /\ p_author payload = fm_author frontmatter
       /\ p_excerpt payload = fm_excerpt frontmatter
       /\ p_tags payload = fm_tags frontmatter
       /\ forall field,
            In field [p_slug payload; p_title payload; p_author payload] ->
            exists value, field = Some value /\ value <> VStr "".
Proof.
  unfold createPost. destruct (file w filePath) as [f|]; [|discriminate].
  destruct (parseFrontmatter (f_text f)) as [frontmatter content] eqn:Ep.
  unfold createPostFrom, validateRequired, missingFields, bind.
  intros H. exists f. split; [reflexivity|]. rewrite Ep. cbn [fst].
  destruct (truthyField (fm_slug frontmatter)) eqn:Es;
    destruct (truthyField (fm_title frontmatter)) eqn:Et;
    destruct (truthyField (fm_author frontmatter)) eqn:Ea;
    try discriminate.
  simpl in H.
  destruct (loadKey w (keyfile options) t) as [t1 [e|key]]; [discriminate|].
  destruct (callProcessImages w content (fm_featured_image frontmatter)
              (getBasePath filePath) (api options) t1)
    as [t2 [e|[processed fUrl]]]; [discriminate|].
  unfold ret in H. injection H as _ <-. simpl.
  repeat split; try reflexivity.
  assert (Hpresent : forall v, truthyField v = true ->
                               exists value, v = Some value /\ value <> VStr "").
  { intros [[[|c s]|items]|] Hv; try discriminate;
      eexists; (split; [reflexivity | discriminate]). }
  intros field [<-|[<-|[<-|[]]]]; now apply Hpresent.
Qed.

Lemma createPost_payload_from_front_matter_witness :
  exists f, file (Scenario.world [Scenario.keyfileOk; Scenario.fullPost]
                    (Some "hunter2")) "posts/full.md" = Some f.
Proof.
  destruct (createPost_payload_from_front_matter
              (Scenario.world [Scenario.keyfileOk; Scenario.fullPost]
                 (Some "hunter2"))
              "posts/full.md" Scenario.common []
              [EvPrompt passwordPrompt;
               EvDecrypt (f_text (snd Scenario.keyfileOk)) "hunter2"]
              (mkPost (Some (VStr "my-post")) (Some (VStr "A")) "file body"
                 (Some (VStr "me")) None None None))
    as (f & Hf & _).
  - vm_compute. reflexivity.
  - now exists f.
Defined.

(** X19.  In both commands nothing is uploaded before the key has been
    obtained: whenever an image upload is among the interactions of
    [createPost] or [updatePost], these start with the password prompt
    and a decryption that gave a key. *)
Theorem commands_upload_after_key
        (w : World) (filePath slug : string) (options : CommonOptions)
        (updateOptions : UpdatePostOptions) (t : list Event) :
  let keyFirst (t' : list Event) :=
    exists evs,
      t' = (t ++ evs)%list
      /\ (forall full out,
             In (EvUpload full out) evs ->
             exists n p key rest,
               evs = (EvPrompt passwordPrompt :: EvDecrypt n p :: rest)%list
               /\ nip49_decrypt w n p = Some key) in
  keyFirst (fst (createPost w filePath options t))
  /\ keyFirst (fst (updatePost w slug updateOptions t)).
Proof.
  intros keyFirst.
  assert (Hnothing : keyFirst t).
  { exists []. rewrite app_nil_r. split; [reflexivity|]. intros full out []. }
  split.
  - unfold createPost. destruct (file w filePath) as [f|]; [|exact Hnothing].
    destruct (parseFrontmatter (f_text f)) as [frontmatter content].
    unfold createPostFrom. destruct (validateRequired frontmatter);
      [exact Hnothing|].
    apply (CommandFacts.key_then_images w (keyfile options)
             (callProcessImages w content (fm_featured_image frontmatter)
                (getBasePath filePath) (api options))).
    + intros t0. apply CommandFacts.callProcessImages_extends.
    + intros [processed fUrl] t0. reflexivity.
  - unfold updatePost. unfold bind at 1.
    destruct ((if given (o_file updateOptions)
               then match o_file updateOptions with
                    | Some filePath0 =>
                        match file w filePath0 with
                        | Some f => ret (draftFromFile filePath0 (f_text f))
                        | None => throw (FileNotFoundError filePath0)
                        end
                    | None => ret (mkDraft emptyUpdate "." None None)
                    end
               else ret (mkDraft emptyUpdate "." None None)) t)
      as [t0 [e|fromFile]] eqn:Efile.
    + assert (t0 = t) as ->; [|exact Hnothing].
      destruct (given (o_file updateOptions)); [|discriminate].
      destruct (o_file updateOptions) as [fp|]; [|discriminate].
      destruct (file w fp); [discriminate|].
      unfold throw in Efile. now injection Efile as <- _.
    + assert (t0 = t) as ->.
      { destruct (given (o_file updateOptions));
          [destruct (o_file updateOptions) as [fp|];
           [destruct (file w fp); [|discriminate]|]|];
          unfold ret in Efile; now injection Efile as <- _. }
      cbv zeta.
      destruct ((keyCount _ =? 0)%nat && _); [exact Hnothing|].
      destruct (given (d_contentFromFile (applyOverrides updateOptions fromFile))
                || truthyField
                     (d_featuredImageFromFile (applyOverrides updateOptions fromFile))).
      * apply (CommandFacts.key_then_images w (keyfile (o_common updateOptions))
                 (callProcessImages w _ _ _ _)).
        -- intros t0. apply CommandFacts.callProcessImages_extends.
        -- intros [processed fUrl] t0. reflexivity.
      * apply (CommandFacts.key_then_images w (keyfile (o_common updateOptions))
                 (ret tt)
                 (fun _ => ret (d_payload (applyOverrides updateOptions fromFile)))).
        -- intros t0. exists []. simpl. now rewrite app_nil_r.
        -- reflexivity.
Qed.

(* ================================================================== *)
(** ** [delete-post.ts] and [store-key.ts] *)
(* ================================================================== *)



(** X21.  A deletion reaches the [DELETE] request only with [--force] or
    a confirmation, and after the key was decrypted; the request goes to
    [<api>/api/posts/<slug>], and the confirmation question, when asked,
    comes before the password prompt. *)
Theorem deletePost_request (w : World) (confirmed : option bool)
        (slug : string) (options : DeletePostOptions) (t t' : list Event)
        (url : string) :
  deletePost w confirmed slug options t = (t', inr (Some url)) ->
  (force options = true \/ confirmed = Some true)
  /\ url = api (dl_common options) ++ "/api/posts/" ++ slug
  /\ exists n p key,
       nip49_decrypt w n p = Some key
       /\ t' = (t ++ (if force options then []
                      else [EvPrompt (confirmPrompt slug)])
                  ++ [EvPrompt passwordPrompt; EvDecrypt n p])%list.
Proof.
  unfold deletePost, bind, confirm, ret, postUrl.
  destruct (force options); simpl.
  - destruct (CommandFacts.loadKey_trace w (keyfile (dl_common options)) t)
      as (evs & Ht & _ & Hkey).
    destruct (loadKey w (keyfile (dl_common options)) t) as [t1 [e|key]];
      [discriminate|].
    simpl in Ht, Hkey. intros H. injection H as <- <-.
    destruct (Hkey key eq_refl) as (n & p & -> & Hd).
    split; [now left|]. split; [reflexivity|]. now exists n, p, key.
  - destruct confirmed as [[|]|]; simpl; try discriminate.
    destruct (CommandFacts.loadKey_trace w (keyfile (dl_common options))
                (t ++ [EvPrompt (confirmPrompt slug)])%list)
      as (evs & Ht & _ & Hkey).
    destruct (loadKey w (keyfile (dl_common options))
                (t ++ [EvPrompt (confirmPrompt slug)])%list) as [t1 [e|key]];
      [discriminate|].
    simpl in Ht, Hkey. intros H. injection H as <- <-.
    destruct (Hkey key eq_refl) as (n & p & -> & Hd).
    split; [now right|]. split; [reflexivity|].
    exists n, p, key. split; [exact Hd|]. rewrite Ht, <- app_assoc. reflexivity.
Qed.

Lemma deletePost_request_witness :
  (false = true \/ Some true = Some true)
  /\ "http://localhost:3000/api/posts/my-post"
     = api Scenario.common ++ "/api/posts/" ++ "my-post"
  /\ exists n p key,
       nip49_decrypt (Scenario.world [Scenario.keyfileOk] (Some "hunter2")) n p
       = Some key
       /\ [EvPrompt (confirmPrompt "my-post"); EvPrompt passwordPrompt;
           EvDecrypt (f_text (snd Scenario.keyfileOk)) "hunter2"]
          = ([] ++ [EvPrompt (confirmPrompt "my-post")]
                ++ [EvPrompt passwordPrompt; EvDecrypt n p])%list.
Proof.
  apply (deletePost_request
           (Scenario.world [Scenario.keyfileOk] (Some "hunter2")) (Some true)
           "my-post" Scenario.deleteOptions []).
  vm_compute. reflexivity.
Defined.

(** X22.  [storeKey] writes to the keyfile exactly when the key, taken
    from the command line if given there and else from the prompt, is not
    empty and parses to a key with a public key, and the two passwords
    are not empty and equal; it then writes the encryption of that key
    under that password to the given path. *)
Theorem storeKey_writes_exactly (k : KeyEntry) (nsecInput : option string)
        (keyfilePath path content : string) :
  storeKey k nsecInput keyfilePath = inr (path, content)
  <-> path = keyfilePath
      /\ exists input secretKey password,
           (nsecInput = Some input
            \/ (given nsecInput = false /\ answerSecretKey k = Some input))
           /\ input <> ""
           /\ parseSecretKey (nip19_decode k) input = inr secretKey
           /\ publicKeyOf k secretKey <> None
           /\ password <> ""
           /\ answerPassword k = Some password
           /\ answerConfirmPassword k = Some password
           /\ nip49_encrypt k secretKey password = Some content.
Proof.
  unfold storeKey, secretKeyInput, given. split.
  - intros H.
    assert (Hin : exists input,
               (nsecInput = Some input
                \/ (given nsecInput = false /\ answerSecretKey k = Some input))
               /\ input <> ""
               /\ (if negb (given nsecInput) then
                     match answerSecretKey k with
                     | Some s => if negb (JS.truthy s) then inl AbortedError
                                 else inr s
                     | None => inl AbortedError
                     end
                   else match nsecInput with
                        | Some s => inr s
                        | None => inl AbortedError
                        end) = inr input).
    { unfold given in *.
      destruct nsecInput as [[|c s]|]; simpl in *.
      - destruct (answerSecretKey k) as [[|c s]|]; simpl in *; try discriminate.
        exists (String c s). repeat split; [now right|discriminate].
      - exists (String c s). repeat split; [now left|discriminate].
      - destruct (answerSecretKey k) as [[|c s]|]; simpl in *; try discriminate.
        exists (String c s). repeat split; [now right|discriminate]. }
    destruct Hin as (input & Hfrom & Hne & Hin).
    unfold given in Hin. rewrite Hin in H.
    destruct (parseSecretKey (nip19_decode k) input) as [e|secretKey] eqn:Ep;
      [discriminate|].
    destruct (publicKeyOf k secretKey) as [pub|] eqn:Epub; [|discriminate].
    destruct (answerPassword k) as [password|]; [|discriminate].
    destruct (answerConfirmPassword k) as [confirmPassword|]; [|discriminate].
    destruct (negb (JS.truthy password) || negb (JS.truthy confirmPassword))
      eqn:Et; [discriminate|].
    destruct (negb (String.eqb password confirmPassword)) eqn:Eeq;
      [discriminate|].
    apply negb_false_iff, String.eqb_eq in Eeq. subst confirmPassword.
    destruct (nip49_encrypt k secretKey password) as [ncryptsec|] eqn:Een;
      [|discriminate].
    injection H as <- <-. split; [reflexivity|].
    exists input, secretKey, password.
    repeat split; try assumption; try congruence.
    intros ->. discriminate.
  - intros (-> & input & secretKey & password & Hfrom & Hne & Hp & Hpub & Hpw
            & Ha & Hc & Hen).
    assert (Hin : (if negb match nsecInput with
                           | Some s => JS.truthy s
                           | None => false
                           end
                   then match answerSecretKey k with
                        | Some s => if negb (JS.truthy s) then inl AbortedError
                                    else inr s
                        | None => inl AbortedError
                        end
                   else match nsecInput with
                        | Some s => inr s
                        | None => inl AbortedError
                        end) = (inr input : Error + string)).
    { destruct input as [|c s]; [congruence|].
      destruct Hfrom as [->|[Hg ->]]; [reflexivity|].
      unfold given in Hg. rewrite Hg. reflexivity. }
    rewrite Hin, Hp.
    destruct (publicKeyOf k secretKey); [|congruence].
    rewrite Ha, Hc. destruct password as [|c0 s0]; [congruence|].
    cbn [JS.truthy negb orb]. rewrite String.eqb_refl. cbn [negb].
    now rewrite Hen.
Qed.

(** X23.  A key stored by [storeKey] is the one [getSecretKey] returns
    from the written file under the same password, provided the cipher
    text of that key begins with [ncryptsec1] and decrypts, once trimmed,
    to the key. *)
Theorem storeKey_then_getSecretKey (k : KeyEntry) (w : World)
        (nsecInput : option string)
        (input keyfilePath path content password : string)
        (secretKey : list Byte.byte) (f : File) (t : list Event) :
  secretKeyInput k nsecInput = inr input ->
  parseSecretKey (nip19_decode k) input = inr secretKey ->
  answerPassword k = Some password ->
  storeKey k nsecInput keyfilePath = inr (path, content) ->
  (forall c, nip49_encrypt k secretKey password = Some c ->
             JS.startsWith c "ncryptsec1" = true
             /\ nip49_decrypt w (JS.trim c) password = Some secretKey) ->
  file w path = Some f ->
  f_text f = content ->
  promptPassword w = Some password ->
  getSecretKey w keyfilePath t
  = ((t ++ [EvPrompt passwordPrompt; EvDecrypt (JS.trim content) password])%list,
     inr secretKey).
Proof.
  intros Hi Hp Ha Hs Hcipher Hf Htext Hpw.
  unfold storeKey in Hs. rewrite Hi, Hp, Ha in Hs.
  destruct (publicKeyOf k secretKey); [|discriminate].
  destruct (answerConfirmPassword k) as [p'|]; [|discriminate].
  destruct (negb (JS.truthy password)) eqn:Et; [discriminate|].
  cbn [orb] in Hs.
  destruct (negb (JS.truthy p')); [discriminate|].
  destruct (negb (String.eqb password p')); [discriminate|].
  destruct (nip49_encrypt k secretKey password) as [ncryptsec|] eqn:Een;
    [|discriminate].
  injection Hs as <- <-.
  destruct (Hcipher ncryptsec eq_refl) as [Hstart Hd].
  unfold getSecretKey, bind, prompt, decrypt, ret, throw.
  rewrite Hf, Htext, Hstart, Hpw. cbn [negb]. rewrite Et, Hd.
  cbn [fst snd]. now rewrite <- app_assoc.
Qed.

Lemma storeKey_then_getSecretKey_witness :
  getSecretKey (Scenario.worldOf Scenario.validKeyBytes) Scenario.keyPath []
  = ([EvPrompt passwordPrompt;
      EvDecrypt (JS.trim (f_text (snd Scenario.keyfileOk))) "hunter2"],
     inr Scenario.validKeyBytes).
Proof.
  apply (storeKey_then_getSecretKey Scenario.keyEntry
           (Scenario.worldOf Scenario.validKeyBytes) None
           Scenario.validHexKey Scenario.keyPath Scenario.keyPath
           (f_text (snd Scenario.keyfileOk)) "hunter2" Scenario.validKeyBytes
           (snd Scenario.keyfileOk) []).
  - reflexivity.
  - vm_compute. reflexivity.
  - reflexivity.
  - vm_compute. reflexivity.
  - intros c H. injection H as <-. split; vm_compute; reflexivity.
  - reflexivity.
  - reflexivity.
  - reflexivity.
Defined.

(* ================================================================== *)
(** ** The test-suites of the repository, replayed on the model *)
(* ================================================================== *)

Module UtilsTests.
Import Scenario.

Example frontmatter_all_fields :
  parseFrontmatter
    (lines ["---"; "slug: my-post"; "title: My Post Title"; "author: John Doe";
            "excerpt: A short description"; "featured_image: ./image.png";
            "tags: [tag1, tag2, tag3]"; "---"; "This is the content."])
  = (mkFrontmatter (Some (VStr "my-post")) (Some (VStr "My Post Title"))
       (Some (VStr "John Doe")) (Some (VStr "A short description"))
       (Some (VStr "./image.png")) (Some (VArr ["tag1"; "tag2"; "tag3"])),
     "This is the content.").
Proof. vm_compute. reflexivity. Qed.

Example frontmatter_quoted :
  fst (parseFrontmatter
    (lines ["---"; "title: " ++ q "Quoted Title"; "author: 'Single Quoted'";
            "tags: [" ++ q "tag one" ++ ", 'tag two', tag3]"; "---"; "Content"]))
  = mkFrontmatter None (Some (VStr "Quoted Title")) (Some (VStr "Single Quoted"))
      None None (Some (VArr ["tag one"; "tag two"; "tag3"])).
Proof. vm_compute. reflexivity. Qed.

Example frontmatter_absent :
  parseFrontmatter "Just plain content without frontmatter."
  = (emptyFrontmatter, "Just plain content without frontmatter.").
Proof. vm_compute. reflexivity. Qed.

Example frontmatter_empty_delimiters :
  parseFrontmatter (lines ["---"; "---"; "Content"])
  = (emptyFrontmatter, lines ["---"; "---"; "Content"]).
Proof. vm_compute. reflexivity. Qed.

Example frontmatter_unknown_fields :
  parseFrontmatter
    (lines ["---"; "slug: test"; "unknown_field: value"; "another_unknown: 123";
            "---"; "Content"])
  = (mkFrontmatter (Some (VStr "test")) None None None None None, "Content").
Proof. vm_compute. reflexivity. Qed.

Example frontmatter_multiline :
  snd (parseFrontmatter
    (lines ["---"; "title: Test"; "---"; "First paragraph."; "";
            "Second paragraph."; ""; "Third paragraph."]))
  = lines ["First paragraph."; ""; "Second paragraph."; ""; "Third paragraph."].
Proof. vm_compute. reflexivity. Qed.

Example refs_markdown :
  parseImageReferences "Some text ![Alt text](./image.png) more text"
  = [mkRef "![Alt text](./image.png)" "./image.png"].
Proof. vm_compute. reflexivity. Qed.

Example refs_markdown_title :
  parseImageReferences ("![Alt](./photo.jpg " ++ q "Image title" ++ ")")
  = [mkRef ("![Alt](./photo.jpg " ++ q "Image title" ++ ")") "./photo.jpg"].
Proof. vm_compute. reflexivity. Qed.

Example refs_html_double :
  parseImageReferences
    ("Text <img src=" ++ q "./image.png" ++ " alt=" ++ q "test" ++ " /> more text")
  = [mkRef ("<img src=" ++ q "./image.png" ++ " alt=" ++ q "test" ++ " />")
       "./image.png"].
Proof. vm_compute. reflexivity. Qed.

Example refs_html_single :
  parseImageReferences "Text <img src='./image.png' /> more text"
  = [mkRef "<img src='./image.png' />" "./image.png"].
Proof. vm_compute. reflexivity. Qed.

Example refs_multiple :
  map path (parseImageReferences
    (lines [""; "      ![First](./first.png)"; "      Some text";
            "      ![Second](./second.jpg)";
            "      <img src=" ++ q "./third.gif" ++ " />"; "    "]))
  = ["./first.png"; "./second.jpg"; "./third.gif"].
Proof. vm_compute. reflexivity. Qed.

Example refs_ignore_remote :
  map path (parseImageReferences
    (lines [""; "      ![Remote](https://example.com/image.png)";
            "      ![Local](./local.png)";
            "      <img src=" ++ q "http://example.com/photo.jpg" ++ " />"; "    "]))
  = ["./local.png"].
Proof. vm_compute. reflexivity. Qed.

Example refs_none :
  parseImageReferences "Just some text without any images." = [].
Proof. vm_compute. reflexivity. Qed.

Example refs_no_alt :
  parseImageReferences "![](./no-alt.png)" = [mkRef "![](./no-alt.png)" "./no-alt.png"].
Proof. vm_compute. reflexivity. Qed.

Example basePath_tests :
  map getBasePath ["posts/my-post.md"; "content/blog/article.md";
                   "/absolute/path/file.md"; "file.md"; "a/b/c/d/e/file.md"]
  = ["posts"; "content/blog"; "/absolute/path"; "."; "a/b/c/d/e"].
Proof. vm_compute. reflexivity. Qed.

Example isLocalPath_tests :
  map isLocalPath ["./image.png"; "../images/photo.jpg"; "image.png";
                   "/home/user/image.png"; "http://example.com/image.png";
                   "https://cdn.example.com/assets/photo.jpg"]
  = [true; true; true; true; false; false].
Proof. vm_compute. reflexivity. Qed.

End UtilsTests.

Module CryptoTests.

Import Scenario.

Example parses_hex :
  map (fun s => lengthOk (parseSecretKey Nip19.decode s))
    [validHexKey;
     "0123456789ABCDEF0123456789ABCDEF0123456789ABCDEF0123456789ABCDEF";
     "  " ++ validHexKey ++ "  ";
     "nsec1vl029mgpspedva04g90vltkh6fvh240zqtv9k0t9af8935ke9laqsnlfe5"]
  = [true; true; true; true].
Proof. vm_compute. reflexivity. Qed.

Example rejects_bad_hex :
  map (fun s => invalidKey (parseSecretKey Nip19.decode s))
    ["0123456789abcdef"; validHexKey ++ "00";
     "0123456789abcdef0123456789abcdef0123456789abcdef0123456789abcdeg";
     ""; "not a valid key at all"]
  = [true; true; true; true; true].
Proof. vm_compute. reflexivity. Qed.

End CryptoTests.
